(** * libcube/cubes/cube2x2simple.py: the corner-only 2x2 cube

    A shallow embedding of the state algebra (state, actions, inverse
    pairing, transform), the renderer and the one-hot encoder, with the
    properties the specification states about them.

    Python tuples are lists here, Python ints are [Z], slot numbers taken
    from the constant tables are [nat], dictionaries are [gmap]s, and every
    operation that can raise in Python ([KeyError], [IndexError],
    [ValueError]) returns [option], [None] standing for the exception. *)

From stdpp Require Import base option list gmap strings.
From Stdlib Require Import ZArith Lia.

Local Open Scope Z_scope.

(** ** Data model *)

(** [State = namedtuple("State", ['corner_pos', 'corner_ort'])] *)
Record State : Type := mkState {
  corner_pos : list Z;
  corner_ort : list Z
}.

(** [initial_state = State(tuple(range(8)), tuple([0]*8))] *)
Definition initial_state : State :=
  mkState (Z.of_nat <$> seq 0 8) (replicate 8 0).

(** [class Action(enum.Enum)]: capital letters are clockwise turns. *)
Inductive Action : Type := R | T | B | r | t | b.

(** The integer value of each member of the enumeration. *)
Definition Action_value (a : Action) : nat :=
  match a with R => 0 | T => 1 | B => 2 | r => 3 | t => 4 | b => 5 end%nat.

Definition Action_of_value (n : nat) : option Action :=
  match n with
  | 0 => Some R | 1 => Some T | 2 => Some B
  | 3 => Some r | 4 => Some t | 5 => Some b
  | _ => None
  end%nat.

(** Iterating over the enumeration visits the members in definition order. *)
Definition actions : list Action := [R; T; B; r; t; b].

#[global] Instance Action_eq_dec : EqDecision Action.
Proof. solve_decision. Defined.

#[global] Instance Action_countable : Countable Action.
Proof.
  apply (inj_countable Action_value Action_of_value).
  intros []; reflexivity.
Defined.

(** ** State algebra *)

(** [is_initial]: tuple equality is content equality. *)
Definition is_initial (state : State) : bool :=
  bool_decide (corner_pos state = corner_pos initial_state) &&
  bool_decide (corner_ort state = corner_ort initial_state).

(** The dictionary [_inverse_action], in the order it is written. *)
Definition _inverse_action : gmap Action Action :=
  list_to_map [(R, r); (r, R); (T, t); (t, T); (B, b); (b, B)].

(** [inverse_action]: a dictionary subscript, a [KeyError] being [None]. *)
Definition inverse_action (action : Action) : option Action :=
  _inverse_action !! action.

(** One entry of [_transform_map]: the corner map, pairs (old slot, new
    slot), and the corner rotation, pairs (slot, flip). *)
Definition move_entry : Type := (list (nat * nat) * list (nat * Z))%type.

Definition _transform_map : gmap Action move_entry :=
  list_to_map [
    (R, ([(1, 2); (2, 6); (6, 5); (5, 1)]%nat,
         [(1%nat, 2); (2%nat, 1); (5%nat, 1); (6%nat, 2)]));
    (T, ([(0, 3); (1, 0); (2, 1); (3, 2)]%nat,
         []));
    (B, ([(2, 3); (3, 7); (7, 6); (6, 2)]%nat,
         [(2%nat, 2); (3%nat, 1); (6%nat, 1); (7%nat, 2)]))
  ].

(** Python's [seq[i] = v] on a list: an [IndexError] once [i] is past the
    end. *)
Definition list_store {A} (l : list A) (i : nat) (v : A) : option (list A) :=
  if (i <? length l)%nat then Some (<[i := v]> l) else None.

(** Modelled from the spec: [_common._permute], which the module imports
    but which is not among the sources. The values are relocated from the
    source slots to the destination slots of the cycle, every value being
    read from the tuple as it was before the move; with [is_inv] the cycle
    is traversed from destination to source. *)
Fixpoint _permute_loop {A} (tup res : list A) (m : list (nat * nat))
    (is_inv : bool) : option (list A) :=
  match m with
  | [] => Some res
  | (from_idx, to_idx) :: m' =>
      if is_inv then
        v ← tup !! to_idx;
        res' ← list_store res from_idx v;
        _permute_loop tup res' m' is_inv
      else
        v ← tup !! from_idx;
        res' ← list_store res to_idx v;
        _permute_loop tup res' m' is_inv
  end.

Definition _permute {A} (tup : list A) (m : list (nat * nat))
    (is_inv : bool) : option (list A) :=
  _permute_loop tup tup m is_inv.

(** Modelled from the spec: [_common._rotate], which the module imports
    but which is not among the sources. Each listed delta is added, modulo
    3, to the orientation present at its slot. Python's [%] with a positive
    divisor is [Z.modulo]. *)
Fixpoint _rotate (ort : list Z) (corners : list (nat * Z))
    : option (list Z) :=
  match corners with
  | [] => Some ort
  | (c, angle) :: corners' =>
      o ← ort !! c;
      ort' ← list_store ort c ((o + angle) mod 3);
      _rotate ort' corners'
  end.

(** [transform]: an action that is not a key of [_transform_map] is the
    inverse of one that is; the same rotation list is handed to [_rotate]
    in both directions. *)
Definition transform (state : State) (action : Action) : option State :=
  let is_inv := bool_decide (_transform_map !! action = None) in
  action' ← (if is_inv then inverse_action action else Some action);
  '(c_map, c_rot) ← _transform_map !! action';
  pos ← _permute (corner_pos state) c_map is_inv;
  ort ← _permute (corner_ort state) c_map is_inv;
  ort' ← _rotate ort c_rot;
  Some (mkState pos ort').

(** [transform(transform(s, a), inverse_action(a))] *)
Definition apply_then_undo (state : State) (action : Action) : option State :=
  s' ← transform state action;
  inv ← inverse_action action;
  transform s' inv.

(** [n] successive applications of one action. *)
Fixpoint transform_n (n : nat) (state : State) (action : Action)
    : option State :=
  match n with
  | O => Some state
  | S n' => s' ← transform state action; transform_n n' s' action
  end.

(** The invariants of the data model: [corner_pos] is a permutation of
    0..7, [corner_ort] has eight entries, each of them 0, 1 or 2. *)
Definition is_orientation (o : Z) : Prop := 0 ≤ o ≤ 2.

Definition valid_state (s : State) : Prop :=
  corner_pos s ≡ₚ Z.of_nat <$> seq 0 8
  ∧ length (corner_ort s) = 8%nat
  ∧ Forall is_orientation (corner_ort s).

(** States are created only by [initial_state] and [transform]. *)
Inductive reachable : State → Prop :=
  | reachable_initial : reachable initial_state
  | reachable_transform s a s' :
      reachable s → transform s a = Some s' → reachable s'.

(** *** The inverse move as the specification words it

    A second definition, written from the specification's description of
    an inverse action and not from the code: take the entry of the
    counterpart generator, traverse the cycle from destination to source,
    then add the deltas after [f] has been applied to each of them. With
    [negate_delta] for [f] this is the specification's wording. *)
Definition negate_delta (angle : Z) : Z := (- angle) mod 3.

Definition transform_inverse_with (f : Z → Z) (state : State)
    (action : Action) : option State :=
  counterpart ← inverse_action action;
  '(c_map, c_rot) ← _transform_map !! counterpart;
  pos ← _permute (corner_pos state) c_map true;
  ort ← _permute (corner_ort state) c_map true;
  ort' ← _rotate ort (prod_map id f <$> c_rot);
  Some (mkState pos ort').

Definition transform_inverse_spec : State → Action → option State :=
  transform_inverse_with negate_delta.

(** The same ingredients in the other order: the negated deltas are added
    first, at the listed slots, and the cycle is traversed in reverse
    afterwards. *)
Definition transform_inverse_unwind (state : State) (action : Action)
    : option State :=
  counterpart ← inverse_action action;
  '(c_map, c_rot) ← _transform_map !! counterpart;
  pos ← _permute (corner_pos state) c_map true;
  ort ← _rotate (corner_ort state) (prod_map id negate_delta <$> c_rot);
  ort' ← _permute ort c_map true;
  Some (mkState pos ort').

(** The delta a rotation list holds for a slot, 0 when the slot is not
    listed. *)
Definition delta_at (c_rot : list (nat * Z)) (slot : nat) : Z :=
  default 0 ((λ found, found.2.2) <$> list_find (λ e, e.1 = slot) c_rot).

(** ** Renderer *)

Record RenderedState : Type := mkRenderedState {
  top : list (option string);
  front : list (option string);
  left : list (option string);
  right : list (option string);
  back : list (option string);
  bottom : list (option string)
}.

(** [_init_sides]: six sides of four cells, all [None]; the order is top,
    left, back, front, right, bottom. *)
Definition _init_sides : list (list (option string)) :=
  replicate 6 (replicate 4 None).

Definition corner_colors : list (list string) := [
  ["W"; "R"; "G"]; ["W"; "B"; "R"]; ["W"; "O"; "B"]; ["W"; "G"; "O"];
  ["Y"; "G"; "R"]; ["Y"; "R"; "B"]; ["Y"; "B"; "O"]; ["Y"; "O"; "G"]
]%string.

Definition corner_maps : list (list (nat * nat)) := [
  (* top layer *)
  [(0, 2); (3, 0); (1, 1)];
  [(0, 3); (4, 0); (3, 1)];
  [(0, 1); (2, 0); (4, 1)];
  [(0, 0); (1, 0); (2, 1)];
  (* bottom layer *)
  [(5, 0); (1, 3); (3, 2)];
  [(5, 1); (3, 3); (4, 2)];
  [(5, 3); (4, 3); (2, 2)];
  [(5, 2); (2, 3); (1, 2)]
]%nat.

(** Python's [seq[i]] for an int [i]: a negative index counts from the
    end, anything outside [-len, len) is an [IndexError]. *)
Definition py_index {A} (l : list A) (i : Z) : option A :=
  let n := Z.of_nat (length l) in
  if (0 <=? i) && (i <? n) then l !! Z.to_nat i
  else if (- n <=? i) && (i <? 0) then l !! Z.to_nat (n + i)
  else None.

(** Modelled from the spec: [_common._map_orient], which the module
    imports but which is not among the sources. The 3-element label is
    rotated cyclically by [orient_id] positions: 0 leaves it as it is, 1
    and 2 are the two rotations of a 3-cycle, here towards the higher
    index; no other orientation is part of the data model. *)
Definition _map_orient (cols : list string) (orient_id : Z)
    : option (list string) :=
  match cols, orient_id with
  | _, 0 => Some cols
  | [c0; c1; c2], 1 => Some [c2; c0; c1]
  | [c0; c1; c2], 2 => Some [c1; c2; c0]
  | _, _ => None
  end%Z.

(** [sides[arr_idx][index] = col] *)
Definition sides_store (sides : list (list (option string)))
    (arr_idx index : nat) (col : string)
    : option (list (list (option string))) :=
  side ← sides !! arr_idx;
  side' ← list_store side index (Some col);
  list_store sides arr_idx side'.

(** The inner loop, [for (arr_idx, index), col in zip(maps, cols)]. *)
Fixpoint render_corner (sides : list (list (option string)))
    (cells : list ((nat * nat) * string))
    : option (list (list (option string))) :=
  match cells with
  | [] => Some sides
  | ((arr_idx, index), col) :: cells' =>
      sides' ← sides_store sides arr_idx index col;
      render_corner sides' cells'
  end.

(** The outer loop, over [zip(corner_pos, corner_ort, corner_maps)]. *)
Fixpoint render_loop (sides : list (list (option string)))
    (slots : list ((Z * Z) * list (nat * nat)))
    : option (list (list (option string))) :=
  match slots with
  | [] => Some sides
  | ((corner, orient), maps) :: slots' =>
      cols ← py_index corner_colors corner;
      cols' ← _map_orient cols orient;
      sides' ← render_corner sides (zip maps cols');
      render_loop sides' slots'
  end.

Definition render_sides (state : State)
    : option (list (list (option string))) :=
  render_loop _init_sides
    (zip (zip (corner_pos state) (corner_ort state)) corner_maps).

Definition render (state : State) : option RenderedState :=
  sides ← render_sides state;
  s0 ← sides !! 0%nat; s1 ← sides !! 1%nat; s2 ← sides !! 2%nat;
  s3 ← sides !! 3%nat; s4 ← sides !! 4%nat; s5 ← sides !! 5%nat;
  Some {| top := s0; left := s1; back := s2;
          front := s3; right := s4; bottom := s5 |}.

(** The assignments [sides[arr_idx][index] = col] in the order the two
    loops of [render] reach them, without the array they are made to. *)
Fixpoint render_trace (slots : list ((Z * Z) * list (nat * nat)))
    : option (list ((nat * nat) * string)) :=
  match slots with
  | [] => Some []
  | ((corner, orient), maps) :: slots' =>
      cols ← py_index corner_colors corner;
      cols' ← _map_orient cols orient;
      rest ← render_trace slots';
      Some (zip maps cols' ++ rest)
  end.

Definition render_writes (state : State)
    : option (list ((nat * nat) * string)) :=
  render_trace (zip (zip (corner_pos state) (corner_ort state)) corner_maps).

(** The (side, cell) coordinates in the order [render] assigns them: slot
    by slot, and within a slot in the order of its placement tuple. *)
Definition placement : list (nat * nat) := concat corner_maps.

(** All coordinates of six sides of four cells. *)
Definition all_cells : list (nat * nat) :=
  s ← seq 0 6; c ← seq 0 4; [(s, c)].

(** [render_action] *)
Definition render_action (action : Action) : string :=
  if decide (action = R) then "R+"%string
  else if decide (action = T) then "U+"%string
  else if decide (action = B) then "B+"%string
  else if decide (action = r) then "R-"%string
  else if decide (action = t) then "U-"%string
  else if decide (action = b) then "B-"%string
  else "?"%string.

(** [to_action]: the result [None] is Python's [None]. *)
Definition to_action (form : string) : option Action :=
  if decide (form = "R+"%string) then Some R
  else if decide (form = "U+"%string) then Some T
  else if decide (form = "B+"%string) then Some B
  else if decide (form = "R-"%string) then Some r
  else if decide (form = "U-"%string) then Some t
  else if decide (form = "B-"%string) then Some b
  else None.

(** The tokens of the six actions. *)
Definition tokens : list string := render_action <$> actions.

(** ** Encoder *)

Definition encoded_shape : nat * nat := (7, 24)%nat.

(** [tuple.index(v)]: the first position holding [v], a [ValueError]
    when there is none. *)
Definition tuple_index (l : list Z) (v : Z) : option nat :=
  fst <$> list_find (λ x, x = v) l.

(** An index into a numpy axis of length [n]: negative indices count from
    the end, anything outside [-n, n) is an [IndexError]. *)
Definition np_axis_index (n : nat) (i : Z) : option nat :=
  if (0 <=? i) && (i <? Z.of_nat n) then Some (Z.to_nat i)
  else if (- Z.of_nat n <=? i) && (i <? 0) then Some (Z.to_nat (Z.of_nat n + i))
  else None.

(** [target[i, j] = v] on a two-dimensional array held as a list of rows. *)
Definition np_store (target : list (list Z)) (i : nat) (j : Z) (v : Z)
    : option (list (list Z)) :=
  row ← target !! i;
  j' ← np_axis_index (length row) j;
  Some (<[i := <[j' := v]> row]> target).

(** The index expression of the assignment in [encode_inplace], for one
    value of [corner_idx]. *)
Definition encode_index (state : State) (corner_idx : nat)
    : option (nat * Z) :=
  perm_pos ← tuple_index (corner_pos state) (Z.of_nat corner_idx);
  corn_ort ← corner_ort state !! perm_pos;
  Some (corner_idx, Z.of_nat perm_pos * 3 + corn_ort).

Fixpoint encode_loop (target : list (list Z)) (state : State)
    (corner_idxs : list nat) : option (list (list Z)) :=
  match corner_idxs with
  | [] => Some target
  | corner_idx :: rest =>
      '(i, j) ← encode_index state corner_idx;
      target' ← np_store target i j 1;
      encode_loop target' state rest
  end.

(** [encode_inplace]: the loop runs over [range(7)]; the array is updated
    in place, here the updated array is the result. *)
Definition encode_inplace (target : list (list Z)) (state : State)
    : option (list (list Z)) :=
  encode_loop target state (seq 0 7).

(** [numpy.zeros(shape)] *)
Definition np_zeros (shape : nat * nat) : list (list Z) :=
  replicate shape.1 (replicate shape.2 0).

(** The number of entries of a row that are 1. *)
Definition count_ones (row : list Z) : nat :=
  length (filter (λ x, x = 1) row).

(** The column [encode_inplace] assigns to in the row of a corner. *)
Definition encoded_column (state : State) (corner_idx : nat) : nat :=
  from_option (λ ij, Z.to_nat ij.2) 0%nat (encode_index state corner_idx).

(** [sides[arr_idx][index]], read. *)
Definition sides_cell (sides : list (list (option string)))
    (arr_idx index : nat) : option (option string) :=
  sides !! arr_idx ≫= (.!! index).

(** The rotated colours of the corner in one slot, as the outer loop of
    [render] computes them. *)
Definition slot_colors (corner orient : Z) : option (list string) :=
  cols ← py_index corner_colors corner; _map_orient cols orient.

(** What [encode_inplace] makes of row [i] of the array. *)
Definition encode_row (state : State) (i : nat) (row : list Z) : list Z :=
  if decide (i < 7)%nat then <[encoded_column state i := 1]> row else row.

(** The slots named by the table entry [transform] uses for an action:
    both ends of the pairs of its corner map and the slots of its corner
    rotation. *)
Definition touched_slots (action : Action) : list nat :=
  let is_inv := bool_decide (_transform_map !! action = None) in
  match (if is_inv then inverse_action action else Some action)
        ≫= (_transform_map !!.) with
  | Some (c_map, c_rot) => c_map.*1 ++ c_map.*2 ++ c_rot.*1
  | None => []
  end.

(** *** Sequences of moves *)

(** Successive calls of [transform], one for each action of the list, each
    on the state the previous call returned. *)
Fixpoint transform_seq (state : State) (moves : list Action) : option State :=
  match moves with
  | [] => Some state
  | a :: rest => s' ← transform state a; transform_seq s' rest
  end.

(** [[inverse_action(a) for a in reversed(moves)]] *)
Fixpoint inverse_seq (moves : list Action) : option (list Action) :=
  match moves with
  | [] => Some []
  | a :: rest =>
      inv ← inverse_action a;
      undo ← inverse_seq rest;
      Some (undo ++ [inv])
  end.

(** [sum(state.corner_ort)] *)
Definition twist_sum (state : State) : Z := foldr Z.add 0 (corner_ort state).

(** * Properties *)

Example transform_R_initial :
  transform initial_state R
  = Some (mkState [0; 5; 1; 3; 4; 6; 2; 7] [0; 2; 1; 0; 0; 1; 2; 0]).
Proof. vm_compute. reflexivity. Qed.

Example transform_r_initial :
  transform initial_state r
  = Some (mkState [0; 2; 6; 3; 4; 1; 5; 7] [0; 2; 1; 0; 0; 1; 2; 0]).
Proof. vm_compute. reflexivity. Qed.

Example render_initial :
  render initial_state
  = Some {| top := Some <$> ["W"; "W"; "W"; "W"]%string;
            left := Some <$> ["G"; "G"; "G"; "G"]%string;
            back := Some <$> ["O"; "O"; "O"; "O"]%string;
            front := Some <$> ["R"; "R"; "R"; "R"]%string;
            right := Some <$> ["B"; "B"; "B"; "B"]%string;
            bottom := Some <$> ["Y"; "Y"; "Y"; "Y"]%string |}.
Proof. vm_compute. reflexivity. Qed.

(** ** The constant tables *)

Lemma inverse_action_total (a : Action) :
  inverse_action a
  = Some match a with R => r | T => t | B => b | r => R | t => T | b => B end.
Proof. destruct a; reflexivity. Qed.

Lemma transform_map_generator (a : Action) :
  _transform_map !! a
  = match a with
    | R => Some ([(1, 2); (2, 6); (6, 5); (5, 1)]%nat,
                 [(1%nat, 2); (2%nat, 1); (5%nat, 1); (6%nat, 2)])
    | T => Some ([(0, 3); (1, 0); (2, 1); (3, 2)]%nat, [])
    | B => Some ([(2, 3); (3, 7); (7, 6); (6, 2)]%nat,
                 [(2%nat, 2); (3%nat, 1); (6%nat, 1); (7%nat, 2)])
    | _ => None
    end.
Proof. destruct a; reflexivity. Qed.

(** Unfolds [transform] and its variants at a known action, reads the
    tables, and runs the loops on lists whose elements are variables. *)
Ltac run_transform :=
  unfold apply_then_undo, transform_inverse_spec, transform_inverse_unwind,
    transform_inverse_with, transform;
  rewrite ?inverse_action_total, ?transform_map_generator;
  cbn -[Z.add Z.modulo Z.opp];
  rewrite ?inverse_action_total, ?transform_map_generator;
  cbn -[Z.add Z.modulo Z.opp].

(** *** What each action does to an eight-slot state *)

Section Moves.
Variables p0 p1 p2 p3 p4 p5 p6 p7 : Z.
Variables o0 o1 o2 o3 o4 o5 o6 o7 : Z.

Let s := mkState [p0; p1; p2; p3; p4; p5; p6; p7]
                 [o0; o1; o2; o3; o4; o5; o6; o7].

Lemma transform_R :
  transform s R
  = Some (mkState [p0; p5; p1; p3; p4; p6; p2; p7]
            [o0; (o5 + 2) mod 3; (o1 + 1) mod 3; o3;
             o4; (o6 + 1) mod 3; (o2 + 2) mod 3; o7]).
Proof. subst s. run_transform. reflexivity. Qed.

Lemma transform_T :
  transform s T
  = Some (mkState [p1; p2; p3; p0; p4; p5; p6; p7]
            [o1; o2; o3; o0; o4; o5; o6; o7]).
Proof. subst s. run_transform. reflexivity. Qed.

Lemma transform_B :
  transform s B
  = Some (mkState [p0; p1; p6; p2; p4; p5; p7; p3]
            [o0; o1; (o6 + 2) mod 3; (o2 + 1) mod 3;
             o4; o5; (o7 + 1) mod 3; (o3 + 2) mod 3]).
Proof. subst s. run_transform. reflexivity. Qed.

Lemma transform_r :
  transform s r
  = Some (mkState [p0; p2; p6; p3; p4; p1; p5; p7]
            [o0; (o2 + 2) mod 3; (o6 + 1) mod 3; o3;
             o4; (o1 + 1) mod 3; (o5 + 2) mod 3; o7]).
Proof. subst s. run_transform. reflexivity. Qed.

Lemma transform_t :
  transform s t
  = Some (mkState [p3; p0; p1; p2; p4; p5; p6; p7]
            [o3; o0; o1; o2; o4; o5; o6; o7]).
Proof. subst s. run_transform. reflexivity. Qed.

Lemma transform_b :
  transform s b
  = Some (mkState [p0; p1; p3; p7; p4; p5; p2; p6]
            [o0; o1; (o3 + 2) mod 3; (o7 + 1) mod 3;
             o4; o5; (o2 + 1) mod 3; (o6 + 2) mod 3]).
Proof. subst s. run_transform. reflexivity. Qed.
End Moves.

(** *** Arithmetic of the orientation group *)

Lemma twist_1_2 (o : Z) : is_orientation o → ((o + 1) mod 3 + 2) mod 3 = o.
Proof.
  intros Ho. rewrite Zplus_mod_idemp_l.
  replace (o + 1 + 2) with (o + 1 * 3) by lia.
  rewrite Z_mod_plus_full. apply Z.mod_small. unfold is_orientation in Ho. lia.
Qed.

Lemma twist_2_1 (o : Z) : is_orientation o → ((o + 2) mod 3 + 1) mod 3 = o.
Proof.
  intros Ho. rewrite Zplus_mod_idemp_l.
  replace (o + 2 + 1) with (o + 1 * 3) by lia.
  rewrite Z_mod_plus_full. apply Z.mod_small. unfold is_orientation in Ho. lia.
Qed.

Lemma twist_is_orientation (o d : Z) : is_orientation ((o + d) mod 3).
Proof.
  unfold is_orientation.
  pose proof (Z.mod_pos_bound (o + d) 3 ltac:(lia)). lia.
Qed.

(** *** States of eight slots *)

(** Names the entries of a list known to have eight of them. *)
Ltac eight l H :=
  do 8 (destruct l as [|? l]; [discriminate H|]);
  destruct l; [clear H|discriminate H].

Ltac split_Forall :=
  repeat match goal with
  | H : Forall _ (_ :: _) |- _ => apply Forall_cons in H as [? H]
  end.

Lemma valid_state_length_pos (s : State) :
  valid_state s → length (corner_pos s) = 8%nat.
Proof. intros (Hperm & _ & _). by rewrite Hperm. Qed.

Lemma valid_state_initial : valid_state initial_state.
Proof.
  split; [reflexivity|]. split; [reflexivity|].
  cbn. repeat constructor; unfold is_orientation; lia.
Qed.

(** [transform] succeeds on a valid state and keeps it valid. *)
Lemma transform_valid (s : State) (a : Action) :
  valid_state s → ∃ s', transform s a = Some s' ∧ valid_state s'.
Proof.
  intros Hv. pose proof (valid_state_length_pos s Hv) as Hlen.
  destruct Hv as (Hperm & Hlo & Hort).
  destruct s as [pos ort]; simpl in *.
  eight pos Hlen. eight ort Hlo. split_Forall.
  destruct a;
    [rewrite transform_R | rewrite transform_T | rewrite transform_B
    |rewrite transform_r | rewrite transform_t | rewrite transform_b];
    (eexists; split; [reflexivity|]);
    (split; [simpl; rewrite <- Hperm; solve_Permutation|]);
    (split; [reflexivity|]);
    simpl; repeat first [apply Forall_nil_2 | apply Forall_cons_2];
    auto using twist_is_orientation.
Qed.

Lemma reachable_valid (s : State) : reachable s → valid_state s.
Proof.
  induction 1 as [|s a s' _ IH Hstep].
  - apply valid_state_initial.
  - destruct (transform_valid s a IH) as (s'' & Hs'' & Hv).
    congruence.
Qed.

(** Undoing a move on a state of eight slots with orientations in range. *)
Lemma apply_then_undo_valid (s : State) (a : Action) :
  valid_state s → apply_then_undo s a = Some s.
Proof.
  intros Hv. pose proof (valid_state_length_pos s Hv) as Hlen.
  destruct Hv as (_ & Hlo & Hort).
  destruct s as [pos ort]; simpl in *.
  eight pos Hlen. eight ort Hlo. split_Forall.
  unfold apply_then_undo.
  destruct a;
    [rewrite transform_R | rewrite transform_T | rewrite transform_B
    |rewrite transform_r | rewrite transform_t | rewrite transform_b];
    rewrite inverse_action_total; cbn [mbind option_bind];
    [rewrite transform_r | rewrite transform_t | rewrite transform_b
    |rewrite transform_R | rewrite transform_T | rewrite transform_B];
    rewrite ?twist_1_2, ?twist_2_1 by assumption; reflexivity.
Qed.

(** ** The state algebra *)

(** C1. For every reachable state [s] and every action [a], applying [a]
    and then its inverse gives [s] back:
    [transform(transform(s, a), inverse_action(a)) == s]. The identity
    state is reachable, so this holds there for all six actions. *)
Theorem transform_then_inverse_restores (s : State) (a : Action) :
  reachable s → apply_then_undo s a = Some s.
Proof. intros Hs. apply apply_then_undo_valid, reachable_valid, Hs. Qed.

Lemma transform_then_inverse_restores_initial :
  reachable initial_state
  ∧ Forall (λ a, apply_then_undo initial_state a = Some initial_state) actions.
Proof.
  split; [apply reachable_initial|].
  unfold actions.
  repeat first [apply Forall_nil_2 | apply Forall_cons_2];
    apply transform_then_inverse_restores, reachable_initial.
Defined.

(** The deltas of a generator at the two ends of every pair of its cycle
    add up to 0 modulo 3; this is why the inverse move can add the same
    deltas again. *)
Lemma generator_deltas_cancel (g : Action) (c_map : list (nat * nat))
    (c_rot : list (nat * Z)) :
  _transform_map !! g = Some (c_map, c_rot) →
  Forall (λ e, (delta_at c_rot e.1 + delta_at c_rot e.2) mod 3 = 0) c_map.
Proof.
  rewrite transform_map_generator.
  destruct g; intros [= <- <-];
    repeat first [apply Forall_nil_2 | apply Forall_cons_2]; reflexivity.
Qed.

(** C2, as the specification words it, fails: from the identity state the
    move [r] adds the deltas of [R] as they are listed (2 at slot 1, 1 at
    slot 2, ...), whereas the wording asks for their negations (1 at slot
    1, 2 at slot 2, ...). *)
Lemma inverse_move_deltas_not_negated :
  _transform_map !! r = None
  ∧ transform initial_state r
    = Some (mkState [0; 2; 6; 3; 4; 1; 5; 7] [0; 2; 1; 0; 0; 1; 2; 0])
  ∧ transform_inverse_spec initial_state r
    = Some (mkState [0; 2; 6; 3; 4; 1; 5; 7] [0; 1; 2; 0; 0; 2; 1; 0])
  ∧ transform initial_state r ≠ transform_inverse_spec initial_state r.
Proof. repeat split; vm_compute; congruence. Qed.

(** C2, amended. For every state and every inverse action (one that is not
    a key of the generator table), [transform] equals: take the entry of
    the counterpart generator, relocate [corner_pos] and [corner_ort]
    along the cycle from destination to source, then add, modulo 3, the
    deltas of that generator as they are listed, without negating them. *)
Theorem inverse_move_reuses_deltas (s : State) (a : Action) :
  _transform_map !! a = None →
  transform s a = transform_inverse_with id s a.
Proof.
  intros Hinv. unfold transform, transform_inverse_with.
  rewrite Hinv, bool_decide_eq_true_2 by reflexivity.
  rewrite transform_map_generator in Hinv.
  destruct a; try discriminate Hinv;
    rewrite inverse_action_total; cbn [mbind option_bind];
    rewrite transform_map_generator; reflexivity.
Qed.

Lemma inverse_move_reuses_deltas_witness :
  _transform_map !! r = None
  ∧ transform (mkState [0; 5; 1; 3; 4; 6; 2; 7] [0; 2; 1; 0; 0; 1; 2; 0]) r
    = transform_inverse_with id
        (mkState [0; 5; 1; 3; 4; 6; 2; 7] [0; 2; 1; 0; 0; 1; 2; 0]) r.
Proof.
  split; [reflexivity|].
  apply inverse_move_reuses_deltas. reflexivity.
Defined.

(** C3. [transform] keeps the invariants: from a state whose [corner_pos]
    is a permutation of 0..7 and whose eight [corner_ort] values are all
    in {0,1,2}, every action returns a state with the same two properties,
    both sequences still of length 8. *)
Theorem transform_preserves_invariants (s : State) (a : Action) :
  corner_pos s ≡ₚ Z.of_nat <$> seq 0 8 →
  length (corner_ort s) = 8%nat →
  Forall (λ o, 0 ≤ o ≤ 2) (corner_ort s) →
  ∃ s', transform s a = Some s'
    ∧ corner_pos s' ≡ₚ Z.of_nat <$> seq 0 8
    ∧ Forall (λ o, 0 ≤ o ≤ 2) (corner_ort s')
    ∧ length (corner_pos s') = 8%nat
    ∧ length (corner_ort s') = 8%nat.
Proof.
  intros Hperm Hlen Hort.
  destruct (transform_valid s a) as (s' & Hs' & Hv); [by repeat split|].
  exists s'. pose proof (valid_state_length_pos s' Hv).
  destruct Hv as (? & ? & ?). by repeat split.
Qed.

Lemma transform_preserves_invariants_witness :
  ∃ s', transform (mkState [0; 5; 1; 3; 4; 6; 2; 7] [0; 2; 1; 0; 0; 1; 2; 0]) B
        = Some s'
    ∧ corner_pos s' ≡ₚ Z.of_nat <$> seq 0 8
    ∧ Forall (λ o, 0 ≤ o ≤ 2) (corner_ort s')
    ∧ length (corner_pos s') = 8%nat
    ∧ length (corner_ort s') = 8%nat.
Proof.
  apply transform_preserves_invariants; simpl.
  - solve_Permutation.
  - reflexivity.
  - repeat first [apply Forall_nil_2 | apply Forall_cons_2]; lia.
Defined.

(** C4. Each of the three generators has order four on the identity state:
    four successive applications of a generator to [initial_state] give
    [initial_state] again, positions and orientations alike. *)
Theorem generator_order_four (g : Action) :
  is_Some (_transform_map !! g) →
  transform_n 4 initial_state g = Some initial_state.
Proof.
  rewrite transform_map_generator.
  destruct g; intros [e He]; try discriminate He; vm_compute; reflexivity.
Qed.

Lemma generator_order_four_witness :
  is_Some (_transform_map !! B)
  ∧ transform_n 4 initial_state B = Some initial_state.
Proof.
  assert (Hg : is_Some (_transform_map !! B)) by (eexists; reflexivity).
  split; [exact Hg|]. apply generator_order_four, Hg.
Defined.

(** C5. [inverse_action] is total on the six actions and an involution,
    and it pairs every generator (a key of the generator table) with its
    inverse move (which is not a key): R with r, T with t, B with b. *)
Theorem inverse_action_involutive :
  (∀ a, ∃ a', inverse_action a = Some a' ∧ inverse_action a' = Some a
              ∧ (is_Some (_transform_map !! a) ↔ _transform_map !! a' = None))
  ∧ inverse_action R = Some r
  ∧ inverse_action T = Some t
  ∧ inverse_action B = Some b.
Proof.
  split; [|repeat split].
  intros a. rewrite inverse_action_total. eexists. split; [reflexivity|].
  rewrite inverse_action_total, !transform_map_generator.
  destruct a; (split; [reflexivity|]); split;
    first [reflexivity | discriminate | by eexists | by intros [? ?]].
Qed.

(** C9. The goal predicate holds exactly at the identity state:
    [is_initial(state)] is true iff both sequences of [state] equal those
    of [initial_state]; so it is true at [initial_state], and false after
    any one of the six actions has been applied to [initial_state]. *)
Theorem is_initial_exactly_initial :
  (∀ s, is_initial s = true ↔ s = initial_state)
  ∧ is_initial initial_state = true
  ∧ (∀ a, ∃ s', transform initial_state a = Some s' ∧ is_initial s' = false).
Proof.
  split; [|split].
  - intros [pos ort]. unfold is_initial. simpl corner_pos. simpl corner_ort.
    rewrite andb_true_iff, !bool_decide_eq_true. split.
    + intros [-> ->]. reflexivity.
    + intros [= -> ->]. split; reflexivity.
  - reflexivity.
  - intros a. destruct a; eexists; (split; [vm_compute; reflexivity|]);
      reflexivity.
Qed.

(** The inverse move seen the other way round: adding the negated deltas
    first and traversing the cycle in reverse afterwards is what
    [transform] does for an inverse action, on every state. *)
Lemma inverse_move_negates_first (s : State) (a : Action) :
  _transform_map !! a = None →
  transform s a = transform_inverse_unwind s a.
Proof.
  intros Hinv. rewrite transform_map_generator in Hinv.
  destruct s as [pos ort].
  destruct a; try discriminate Hinv;
    do 8 (try destruct pos as [|? pos]);
    do 8 (try destruct ort as [|? ort]);
    unfold transform_inverse_unwind, transform;
    rewrite ?inverse_action_total, ?transform_map_generator;
    cbn -[Z.add Z.modulo negate_delta];
    rewrite ?inverse_action_total, ?transform_map_generator;
    cbn -[Z.add Z.modulo negate_delta];
    reflexivity.
Qed.

(** ** Action tokens *)

(** C6. The tokens and the actions correspond one to one: parsing the
    token of any of the six actions gives that action back, every token
    has two characters, a string that parses renders back to itself, and
    every string that is not one of the six tokens, "ZZ" for one, parses
    to [None] instead of failing. *)
Theorem action_token_roundtrip :
  (∀ a, to_action (render_action a) = Some a
        ∧ String.length (render_action a) = 2%nat)
  ∧ (∀ form a, to_action form = Some a → render_action a = form)
  ∧ (∀ form, form ∉ tokens → to_action form = None)
  ∧ to_action "ZZ" = None.
Proof.
  split; [|split; [|split]].
  - intros []; split; reflexivity.
  - intros form a. unfold to_action.
    repeat case_decide; intros [= <-]; subst form; reflexivity.
  - intros form Hform. unfold to_action.
    repeat case_decide; try reflexivity; subst form;
      exfalso; apply Hform; unfold tokens, actions;
      rewrite !fmap_cons, !elem_of_cons; tauto.
  - reflexivity.
Qed.

Lemma action_token_roundtrip_witness :
  ("ZZ"%string ∉ tokens) ∧ to_action "ZZ" = None
  ∧ (to_action "U-" = Some t → render_action t = "U-"%string).
Proof.
  assert (Hzz : "ZZ"%string ∉ tokens).
  { unfold tokens, actions. rewrite !fmap_cons, fmap_nil.
    rewrite !elem_of_cons, elem_of_nil.
    intros [H|[H|[H|[H|[H|[H|H]]]]]]; [discriminate H..|exact H]. }
  split; [exact Hzz|]. split.
  - apply (proj1 (proj2 (proj2 action_token_roundtrip))), Hzz.
  - apply (proj1 (proj2 action_token_roundtrip)).
Defined.

(** ** The renderer *)

Lemma placement_all_cells : placement ≡ₚ all_cells.
Proof. apply (bool_decide_unpack _). vm_compute. exact I. Qed.

Lemma placement_NoDup : NoDup placement.
Proof. apply (bool_decide_unpack _). vm_compute. exact I. Qed.

Lemma render_corner_app sides tr1 tr2 :
  render_corner sides (tr1 ++ tr2)
  = sides' ← render_corner sides tr1; render_corner sides' tr2.
Proof.
  revert sides. induction tr1 as [|[[arr_idx index] col] tr1 IH];
    intros sides; simpl; [reflexivity|].
  destruct (sides_store sides arr_idx index col) as [sides'|]; simpl;
    [apply IH | reflexivity].
Qed.

(** The two loops of [render] make the assignments of the trace, in the
    order of the trace. *)
Lemma render_loop_trace sides slots :
  render_loop sides slots = tr ← render_trace slots; render_corner sides tr.
Proof.
  revert sides. induction slots as [|[[corner orient] maps] slots IH];
    intros sides; simpl; [reflexivity|].
  destruct (py_index corner_colors corner) as [cols|]; simpl; [|reflexivity].
  destruct (_map_orient cols orient) as [cols'|]; simpl; [|reflexivity].
  destruct (render_corner sides (zip maps cols')) as [sides'|] eqn:Hsides;
    simpl.
  - rewrite IH.
    destruct (render_trace slots) as [rest|]; simpl; [|reflexivity].
    by rewrite render_corner_app, Hsides.
  - destruct (render_trace slots) as [rest|]; simpl; [|reflexivity].
    by rewrite render_corner_app, Hsides.
Qed.

Lemma py_index_elem_of {A} (l : list A) (i : Z) (x : A) :
  py_index l i = Some x → x ∈ l.
Proof.
  unfold py_index. intros H.
  repeat case_match; try discriminate H; eapply list_elem_of_lookup_2, H.
Qed.

Lemma py_index_in_range {A} (l : list A) (i : Z) :
  0 ≤ i < Z.of_nat (length l) → is_Some (py_index l i).
Proof.
  intros Hi. unfold py_index.
  replace ((0 <=? i) && (i <? Z.of_nat (length l))) with true
    by (symmetry; apply andb_true_iff; split; lia).
  apply lookup_lt_is_Some. lia.
Qed.

Lemma corner_colors_length cols : cols ∈ corner_colors → length cols = 3%nat.
Proof.
  unfold corner_colors. rewrite !elem_of_cons, elem_of_nil.
  intros H; repeat destruct H as [->|H]; try reflexivity; contradiction.
Qed.

Lemma _map_orient_length cols orient cols' :
  _map_orient cols orient = Some cols' → length cols' = length cols.
Proof.
  unfold _map_orient. intros H.
  repeat case_match; simplify_eq; reflexivity.
Qed.

Lemma _map_orient_is_Some cols orient :
  length cols = 3%nat → is_orientation orient →
  is_Some (_map_orient cols orient).
Proof.
  intros Hlen Ho. destruct cols as [|c0 [|c1 [|c2 [|]]]]; try discriminate Hlen.
  assert (orient = 0 ∨ orient = 1 ∨ orient = 2) as [-> | [-> | ->]]
    by (unfold is_orientation in Ho; lia); eexists; reflexivity.
Qed.

(** The coordinates of the trace are the placement tuples of the slots,
    one after the other. *)
Lemma render_trace_coordinates slots tr :
  Forall (λ slot, length slot.2 = 3%nat) slots →
  render_trace slots = Some tr →
  tr.*1 = concat (slots.*2).
Proof.
  intros Hmaps. revert tr.
  induction Hmaps as [|[[corner orient] maps] slots Hlen _ IH];
    intros tr; simpl in *; [by intros [= <-]|].
  destruct (py_index corner_colors corner) as [cols|] eqn:Hcols;
    simpl; [|discriminate].
  destruct (_map_orient cols orient) as [cols'|] eqn:Hcols';
    simpl; [|discriminate].
  destruct (render_trace slots) as [rest|]; simpl; [|discriminate].
  intros [= <-]. rewrite fmap_app, (IH rest eq_refl). f_equal.
  apply fst_zip.
  apply _map_orient_length in Hcols'.
  apply py_index_elem_of, corner_colors_length in Hcols. lia.
Qed.

Lemma render_trace_is_Some slots :
  Forall (λ slot, 0 ≤ slot.1.1 ≤ 7 ∧ is_orientation slot.1.2) slots →
  is_Some (render_trace slots).
Proof.
  induction 1 as [|[[corner orient] maps] slots [Hc Ho] _ [rest IH]];
    simpl in *; [by eexists|].
  destruct (py_index_in_range corner_colors corner) as [cols Hcols];
    [simpl; lia|].
  rewrite Hcols. simpl.
  destruct (_map_orient_is_Some cols orient) as [cols' Hcols']; [|done|].
  { eapply corner_colors_length, py_index_elem_of, Hcols. }
  rewrite Hcols', IH. simpl. by eexists.
Qed.

(** Whatever the 24 colours, assigning them along the placement table to
    the empty sides succeeds and leaves no cell empty. *)
Lemma render_corner_placement (cols : list string) :
  length cols = 24%nat →
  ∃ sides, render_corner _init_sides (zip placement cols) = Some sides
    ∧ length sides = 6%nat
    ∧ Forall (λ side, length side = 4%nat ∧ Forall is_Some side) sides.
Proof.
  intros Hlen.
  do 24 (destruct cols as [|? cols]; [discriminate Hlen|]).
  destruct cols; [clear Hlen|discriminate Hlen].
  eexists. split; [vm_compute; reflexivity|]. split; [reflexivity|].
  repeat first [apply Forall_nil_2 | apply Forall_cons_2 | split
               | reflexivity | by eexists].
Qed.

(** Every assignment of the trace is still to be read in the sides once
    all of them are made: no later assignment overwrites it. *)
Lemma render_corner_placement_cells (cols : list string) sides :
  length cols = 24%nat →
  render_corner _init_sides (zip placement cols) = Some sides →
  ∀ arr_idx index col,
    ((arr_idx, index), col) ∈ zip placement cols →
    sides_cell sides arr_idx index = Some (Some col).
Proof.
  intros Hlen.
  do 24 (destruct cols as [|? cols]; [discriminate Hlen|]).
  destruct cols; [clear Hlen|discriminate Hlen].
  intros Hsides arr_idx index col Hin.
  vm_compute in Hsides. injection Hsides as <-.
  unfold placement, corner_maps in Hin. simpl in Hin.
  repeat (apply elem_of_cons in Hin as [Hin|Hin];
          [by simplify_eq|]).
  by apply elem_of_nil in Hin.
Qed.

(** C8. The placement table is a bijection from its 24 entries (8 slots
    with 3 colour positions each) onto the 24 (side, cell) coordinates of
    6 sides with 4 cells, and [render] assigns along it: on every state of
    eight slots whose corners are in 0..7 and whose orientations are in
    {0,1,2}, the coordinates assigned are those of the table in its order,
    so every cell is assigned once, none twice, and none is left empty;
    the [RenderedState] that [render] returns consists of the six sides so
    assigned, each of its 24 cells holding the colour of the one
    assignment made to it. *)
Theorem render_fills_every_cell_once (s : State) :
  length (corner_pos s) = 8%nat →
  length (corner_ort s) = 8%nat →
  Forall (λ c, 0 ≤ c ≤ 7) (corner_pos s) →
  Forall (λ o, 0 ≤ o ≤ 2) (corner_ort s) →
  length placement = 24%nat ∧ NoDup placement ∧ placement ≡ₚ all_cells
  ∧ ∃ tr sides rs,
      render_writes s = Some tr
      ∧ tr.*1 = placement
      ∧ render_corner _init_sides tr = Some sides
      ∧ render_sides s = Some sides
      ∧ length sides = 6%nat
      ∧ Forall (λ side, length side = 4%nat ∧ Forall is_Some side) sides
      ∧ render s = Some rs
      ∧ [top rs; left rs; back rs; front rs; right rs; bottom rs] = sides
      ∧ Forall (λ side, length side = 4%nat ∧ Forall is_Some side)
          [top rs; front rs; left rs; right rs; back rs; bottom rs]
      ∧ (∀ arr_idx index col,
           ((arr_idx, index), col) ∈ tr →
           sides_cell sides arr_idx index = Some (Some col)).
Proof.
  intros Hlp Hlo Hpos Hort.
  split; [reflexivity|]. split; [apply placement_NoDup|].
  split; [apply placement_all_cells|].
  destruct s as [pos ort]; simpl in *.
  eight pos Hlp. eight ort Hlo. split_Forall.
  unfold render, render_sides, render_writes. simpl zip.
  match goal with |- context [render_trace ?l] => set (slots := l) end.
  destruct (render_trace_is_Some slots) as [tr Htr].
  { subst slots.
    repeat first [apply Forall_nil_2 | apply Forall_cons_2]; by split. }
  assert (Hcoord : tr.*1 = placement).
  { rewrite (render_trace_coordinates slots tr); [reflexivity| |exact Htr].
    subst slots.
    repeat first [apply Forall_nil_2 | apply Forall_cons_2]; reflexivity. }
  assert (Hcols : length (tr.*2) = 24%nat).
  { rewrite length_fmap, <- (length_fmap fst), Hcoord. reflexivity. }
  destruct (render_corner_placement (tr.*2) Hcols)
    as (sides & Hsides & Hlen & Hfull).
  pose proof (render_corner_placement_cells (tr.*2) sides Hcols Hsides)
    as Hcells.
  rewrite <- Hcoord, zip_fst_snd in Hsides, Hcells.
  rewrite render_loop_trace, Htr. simpl. rewrite Hsides. simpl.
  do 6 (destruct sides as [|? sides]; [discriminate Hlen|]).
  destruct sides; [|discriminate Hlen].
  eexists tr, _, _.
  split; [reflexivity|]. split; [exact Hcoord|]. split; [exact Hsides|].
  split; [reflexivity|]. split; [reflexivity|]. split; [exact Hfull|].
  split; [reflexivity|]. split; [reflexivity|]. split; [|exact Hcells].
  simpl. split_Forall.
  repeat first [apply Forall_nil_2 | apply Forall_cons_2]; assumption.
Qed.

Lemma render_fills_every_cell_once_witness :
  ∃ tr sides rs,
    render_writes (mkState [0; 5; 1; 3; 4; 6; 2; 7] [0; 2; 1; 0; 0; 1; 2; 0])
    = Some tr
    ∧ tr.*1 = placement
    ∧ render_sides (mkState [0; 5; 1; 3; 4; 6; 2; 7] [0; 2; 1; 0; 0; 1; 2; 0])
      = Some sides
    ∧ render (mkState [0; 5; 1; 3; 4; 6; 2; 7] [0; 2; 1; 0; 0; 1; 2; 0])
      = Some rs
    ∧ [top rs; left rs; back rs; front rs; right rs; bottom rs] = sides
    ∧ Forall (λ side, length side = 4%nat ∧ Forall is_Some side)
        [top rs; front rs; left rs; right rs; back rs; bottom rs].
Proof.
  destruct (render_fills_every_cell_once
              (mkState [0; 5; 1; 3; 4; 6; 2; 7] [0; 2; 1; 0; 0; 1; 2; 0]))
    as (_ & _ & _ & tr & sides & rs & Htr & Hcoord & _ & Hsides & _ & _
        & Hrs & Hfields & Hfull & _);
    [reflexivity | reflexivity | | |].
  - simpl. repeat first [apply Forall_nil_2 | apply Forall_cons_2]; lia.
  - simpl. repeat first [apply Forall_nil_2 | apply Forall_cons_2]; lia.
  - exists tr, sides, rs. repeat split; assumption.
Defined.

(** ** The encoder *)

(** In a valid state every corner sits in exactly one slot, [tuple.index]
    finds that slot, and the orientation read there is in range. *)
Lemma encode_index_valid (s : State) (c : nat) :
  valid_state s → (c < 8)%nat →
  ∃ p o,
    corner_pos s !! p = Some (Z.of_nat c)
    ∧ (∀ p', corner_pos s !! p' = Some (Z.of_nat c) → p' = p)
    ∧ corner_ort s !! p = Some o
    ∧ (p < 8)%nat ∧ 0 ≤ o ≤ 2
    ∧ encode_index s c = Some (c, Z.of_nat p * 3 + o).
Proof.
  intros Hv Hc. pose proof (valid_state_length_pos s Hv) as Hlen.
  destruct Hv as (Hperm & Hlo & Hort).
  assert (Hin : Z.of_nat c ∈ corner_pos s).
  { rewrite Hperm. apply list_elem_of_fmap_2, elem_of_seq. lia. }
  assert (Hnd : NoDup (corner_pos s)).
  { rewrite Hperm. apply (NoDup_fmap_2 _), NoDup_seq. }
  destruct (list_find_elem_of (λ x, x = Z.of_nat c) _ _ Hin eq_refl)
    as [[p x] Hfind].
  pose proof Hfind as Hfind'.
  apply list_find_Some in Hfind' as (Hp & -> & _).
  pose proof (lookup_lt_Some _ _ _ Hp) as Hplt. rewrite Hlen in Hplt.
  destruct (lookup_lt_is_Some_2 (corner_ort s) p) as [o Ho]; [lia|].
  exists p, o. repeat split; try done.
  - intros p' Hp'. eapply NoDup_lookup; eauto.
  - eapply (Forall_lookup_1 _ _ _ _ Hort Ho).
  - eapply (Forall_lookup_1 _ _ _ _ Hort Ho).
  - unfold encode_index, tuple_index. rewrite Hfind. simpl. by rewrite Ho.
Qed.

(** C10. For every state satisfying the invariants, every index
    [encode_inplace] assigns to lies within the declared shape (7, 24):
    for each [corner_idx] of the loop, the row is below 7 and the column
    [perm_pos * 3 + corn_ort] is in 0..23. *)
Theorem encode_index_in_bounds (s : State) (corner_idx : nat) :
  valid_state s →
  corner_idx ∈ seq 0 7 →
  ∃ i j, encode_index s corner_idx = Some (i, j)
    ∧ (i < encoded_shape.1)%nat
    ∧ 0 ≤ j < Z.of_nat encoded_shape.2.
Proof.
  intros Hv Hc. apply elem_of_seq in Hc.
  destruct (encode_index_valid s corner_idx Hv)
    as (p & o & _ & _ & _ & Hp & Ho & Henc); [lia|].
  eexists _, _. split; [exact Henc|]. simpl. lia.
Qed.

Lemma encode_index_in_bounds_witness :
  ∃ i j,
    encode_index (mkState [0; 5; 1; 3; 4; 6; 2; 7] [0; 2; 1; 0; 0; 1; 2; 0]) 6
    = Some (i, j)
    ∧ (i < encoded_shape.1)%nat
    ∧ 0 ≤ j < Z.of_nat encoded_shape.2.
Proof.
  apply encode_index_in_bounds.
  - split; [simpl; solve_Permutation|]. split; [reflexivity|].
    simpl. repeat first [apply Forall_nil_2 | apply Forall_cons_2];
      unfold is_orientation; lia.
  - apply elem_of_seq. lia.
Defined.

Lemma np_axis_index_in_range (n : nat) (j : Z) :
  0 ≤ j < Z.of_nat n → np_axis_index n j = Some (Z.to_nat j).
Proof.
  intros Hj. unfold np_axis_index.
  replace ((0 <=? j) && (j <? Z.of_nat n)) with true; [reflexivity|].
  symmetry. apply andb_true_iff. split; lia.
Qed.

Lemma count_ones_zeros (n : nat) : count_ones (replicate n 0) = 0%nat.
Proof.
  unfold count_ones. induction n as [|n IH]; simpl; [reflexivity|].
  rewrite filter_cons_False by discriminate. exact IH.
Qed.

Lemma count_ones_one_hot (n j : nat) :
  (j < n)%nat → count_ones (<[j := 1]> (replicate n 0)) = 1%nat.
Proof.
  revert j. induction n as [|n IH]; intros j Hj; [lia|].
  destruct j as [|j]; simpl.
  - unfold count_ones. rewrite filter_cons_True by reflexivity. simpl.
    f_equal. apply count_ones_zeros.
  - unfold count_ones in *. rewrite filter_cons_False by discriminate.
    apply IH. lia.
Qed.

(** The loop of [encode_inplace] over any duplicate-free choice of corners
    below 7: it succeeds, and each row comes out either untouched or with a
    single entry set to 1, the one in the column of its corner. *)
Lemma encode_loop_rows (s : State) (corner_idxs : list nat) :
  valid_state s →
  Forall (λ c, c < 7)%nat corner_idxs →
  NoDup corner_idxs →
  ∀ target,
    (7 ≤ length target)%nat →
    Forall (λ row, length row = 24%nat) target →
    ∃ target',
      encode_loop target s corner_idxs = Some target'
      ∧ length target' = length target
      ∧ Forall (λ row, length row = 24%nat) target'
      ∧ ∀ i row, target !! i = Some row →
          target' !! i
          = Some (if decide (i ∈ corner_idxs)
                  then <[encoded_column s i := 1]> row else row).
Proof.
  intros Hv Hlt Hnd.
  induction corner_idxs as [|c rest IH]; intros target Hrows Hcols.
  - exists target. repeat split; try done;
      intros i row Hi; by rewrite decide_False by apply not_elem_of_nil.
  - apply Forall_cons in Hlt as [Hc Hlt]. apply NoDup_cons in Hnd as [Hc' Hnd].
    destruct (encode_index_valid s c Hv)
      as (p & o & _ & _ & _ & Hp & Ho & Henc); [lia|].
    destruct (lookup_lt_is_Some_2 target c) as [row0 Hrow0]; [lia|].
    pose proof (Forall_lookup_1 _ _ _ _ Hcols Hrow0) as Hlen0.
    simpl in Hlen0 |- *. rewrite Henc. simpl. unfold np_store.
    rewrite Hrow0. simpl.
    rewrite np_axis_index_in_range by lia. simpl.
    set (j := Z.to_nat (Z.of_nat p * 3 + o)).
    destruct (IH Hlt Hnd (<[c := <[j := 1]> row0]> target))
      as (target' & Hloop & Hlen' & Hcols' & Hrows').
    { by rewrite length_insert. }
    { apply Forall_insert; [exact Hcols|]. by rewrite length_insert. }
    exists target'. rewrite length_insert in Hlen'.
    repeat split; try done.
    intros i row Hi. destruct (decide (i = c)) as [->|Hne].
    + rewrite (Hrows' c (<[j := 1]> row0)).
      2:{ apply list_lookup_insert_eq. by eapply lookup_lt_Some. }
      rewrite decide_False by exact Hc'.
      rewrite decide_True by apply list_elem_of_here.
      assert (row = row0) as -> by congruence.
      unfold encoded_column. rewrite Henc. reflexivity.
    + rewrite (Hrows' i row) by (by rewrite list_lookup_insert_ne).
      f_equal. destruct (decide (i ∈ rest)) as [Hin|Hnin].
      * rewrite decide_True by (by apply list_elem_of_further). reflexivity.
      * rewrite decide_False; [reflexivity|].
        rewrite elem_of_cons. tauto.
Qed.

(** C7. On every valid state and every buffer of at least 7 rows of 24
    columns, [encode_inplace] succeeds and, for each corner [c] in 0..6,
    sets to 1 the entry of row [c] in column [p * 3 + o], where [p] is the
    one slot with [corner_pos[p] == c] and [o = corner_ort[p]]; it changes
    no other entry, nothing is assigned for corner 7 and rows from 7 on
    are left as they were. On the zeroed 7 x 24 buffer every row therefore
    ends with exactly one 1. *)
Theorem encode_inplace_one_hot (s : State) (target : list (list Z)) :
  valid_state s →
  (7 ≤ length target)%nat →
  Forall (λ row, length row = 24%nat) target →
  ∃ target',
    encode_inplace target s = Some target'
    ∧ length target' = length target
    ∧ (∀ c row, (c < 7)%nat → target !! c = Some row →
        ∃ p o,
          corner_pos s !! p = Some (Z.of_nat c)
          ∧ (∀ p', corner_pos s !! p' = Some (Z.of_nat c) → p' = p)
          ∧ corner_ort s !! p = Some o
          ∧ 0 ≤ Z.of_nat p * 3 + o < 24
          ∧ target' !! c
            = Some (<[Z.to_nat (Z.of_nat p * 3 + o) := 1]> row))
    ∧ (∀ i, (7 ≤ i)%nat → target' !! i = target !! i)
    ∧ (target = np_zeros encoded_shape →
        length target' = 7%nat
        ∧ Forall (λ row', count_ones row' = 1%nat) target').
Proof.
  intros Hv Hrows Hcols.
  destruct (encode_loop_rows s (seq 0 7) Hv) with (target := target)
    as (target' & Hloop & Hlen & _ & Hrows'); try done.
  { apply Forall_forall. intros c Hc. apply elem_of_seq in Hc. lia. }
  { apply NoDup_seq. }
  assert (Hset : ∀ c row, (c < 7)%nat → target !! c = Some row →
            ∃ p o,
              corner_pos s !! p = Some (Z.of_nat c)
              ∧ (∀ p', corner_pos s !! p' = Some (Z.of_nat c) → p' = p)
              ∧ corner_ort s !! p = Some o
              ∧ 0 ≤ Z.of_nat p * 3 + o < 24
              ∧ target' !! c
                = Some (<[Z.to_nat (Z.of_nat p * 3 + o) := 1]> row)).
  { intros c row Hc Hrow.
    destruct (encode_index_valid s c Hv)
      as (p & o & Hp & Huniq & Ho & Hplt & Hort & Henc); [lia|].
    exists p, o. repeat split; try done; try lia.
    rewrite (Hrows' c row Hrow).
    rewrite decide_True by (apply elem_of_seq; lia).
    unfold encoded_column. by rewrite Henc. }
  exists target'.
  split; [exact Hloop|]. split; [exact Hlen|]. split; [exact Hset|]. split.
  - intros i Hi. destruct (target !! i) as [row|] eqn:Hrow.
    + rewrite (Hrows' i row Hrow).
      rewrite decide_False; [reflexivity|].
      rewrite elem_of_seq. lia.
    + apply lookup_ge_None. apply lookup_ge_None in Hrow. lia.
  - intros ->. split; [by rewrite Hlen|].
    apply Forall_lookup. intros c row' Hrow'.
    pose proof (lookup_lt_Some _ _ _ Hrow') as Hc.
    rewrite Hlen in Hc. simpl in Hc.
    destruct (Hset c (replicate 24 0) Hc)
      as (p & o & _ & _ & _ & Hcol & Hrow'').
    { apply lookup_replicate_2. exact Hc. }
    rewrite Hrow' in Hrow''. injection Hrow'' as ->.
    apply (count_ones_one_hot 24). lia.
Qed.

Lemma encode_inplace_one_hot_witness :
  ∃ target',
    encode_inplace (np_zeros encoded_shape)
      (mkState [0; 5; 1; 3; 4; 6; 2; 7] [0; 2; 1; 0; 0; 1; 2; 0])
    = Some target'
    ∧ length target' = 7%nat
    ∧ Forall (λ row', count_ones row' = 1%nat) target'.
Proof.
  destruct (encode_inplace_one_hot
              (mkState [0; 5; 1; 3; 4; 6; 2; 7] [0; 2; 1; 0; 0; 1; 2; 0])
              (np_zeros encoded_shape))
    as (target' & Henc & _ & _ & _ & Hzero).
  - split; [simpl; solve_Permutation|]. split; [reflexivity|].
    simpl. repeat first [apply Forall_nil_2 | apply Forall_cons_2];
      unfold is_orientation; lia.
  - simpl. lia.
  - simpl. repeat first [apply Forall_nil_2 | apply Forall_cons_2];
      reflexivity.
  - exists target'. split; [exact Henc|]. apply Hzero. reflexivity.
Defined.

Example encode_initial :
  encode_inplace (np_zeros encoded_shape) initial_state
  = Some ((λ c, <[(3 * c)%nat := 1]> (replicate 24 0)) <$> seq 0 7).
Proof. vm_compute. reflexivity. Qed.

(** * The slots a move leaves alone *)

Lemma list_store_lookup_ne {A} (l l' : list A) (i j : nat) (v : A) :
  list_store l i v = Some l' → i ≠ j → l' !! j = l !! j.
Proof.
  unfold list_store. destruct (i <? length l)%nat; [|discriminate].
  intros [= <-] Hne. by apply list_lookup_insert_ne.
Qed.

Lemma _permute_loop_frame {A} (tup res res' : list A) m is_inv (j : nat) :
  _permute_loop tup res m is_inv = Some res' →
  j ∉ (if is_inv then m.*1 else m.*2) →
  res' !! j = res !! j.
Proof.
  revert res. induction m as [|[from_idx to_idx] m IH]; intros res; simpl.
  - by intros [= <-].
  - destruct is_inv; simpl.
    + destruct (tup !! to_idx) as [v|]; simpl; [|discriminate].
      destruct (list_store res from_idx v) as [res1|] eqn:Hstore; simpl;
        [|discriminate].
      intros Hloop Hj. apply not_elem_of_cons in Hj as [Hne Hj].
      rewrite (IH res1 Hloop Hj).
      eapply list_store_lookup_ne; [exact Hstore|done].
    + destruct (tup !! from_idx) as [v|]; simpl; [|discriminate].
      destruct (list_store res to_idx v) as [res1|] eqn:Hstore; simpl;
        [|discriminate].
      intros Hloop Hj. apply not_elem_of_cons in Hj as [Hne Hj].
      rewrite (IH res1 Hloop Hj).
      eapply list_store_lookup_ne; [exact Hstore|done].
Qed.

Lemma _rotate_frame (ort ort' : list Z) corners (j : nat) :
  _rotate ort corners = Some ort' → j ∉ corners.*1 → ort' !! j = ort !! j.
Proof.
  revert ort. induction corners as [|[c angle] corners IH]; intros ort; simpl.
  - by intros [= <-].
  - destruct (ort !! c) as [o|]; simpl; [|discriminate].
    destruct (list_store ort c ((o + angle) mod 3)) as [ort1|] eqn:Hstore;
      simpl; [|discriminate].
    intros Hrot Hj. apply not_elem_of_cons in Hj as [Hne Hj].
    rewrite (IH ort1 Hrot Hj).
    eapply list_store_lookup_ne; [exact Hstore|done].
Qed.

Lemma transform_untouched (s s' : State) (a : Action) (i : nat) :
  transform s a = Some s' →
  i ∉ touched_slots a →
  corner_pos s' !! i = corner_pos s !! i
  ∧ corner_ort s' !! i = corner_ort s !! i.
Proof.
  unfold transform, touched_slots.
  rewrite inverse_action_total.
  destruct (bool_decide (_transform_map !! a = None)) eqn:Hinv;
    cbn [mbind option_bind];
    rewrite transform_map_generator;
    rewrite transform_map_generator in Hinv;
    destruct a; try discriminate Hinv; cbn [mbind option_bind];
    (destruct (_permute (corner_pos s) _ _) as [pos|] eqn:Hpos;
       cbn [mbind option_bind]; [|discriminate]);
    (destruct (_permute (corner_ort s) _ _) as [ort|] eqn:Hort;
       cbn [mbind option_bind]; [|discriminate]);
    (destruct (_rotate ort _) as [ort'|] eqn:Hrot;
       cbn [mbind option_bind]; [|discriminate]);
    intros [= <-] Hi;
    apply not_elem_of_app in Hi as [Hi1 Hi];
    apply not_elem_of_app in Hi as [Hi2 Hi3];
    cbn [corner_pos corner_ort];
    split;
    first
      [eapply _permute_loop_frame;
         [exact Hpos | first [exact Hi1 | exact Hi2]]
      |rewrite (_rotate_frame _ _ _ _ Hrot Hi3);
       eapply _permute_loop_frame;
         [exact Hort | first [exact Hi1 | exact Hi2]]].
Qed.

(** A move touches four slots only: whatever the state, when [transform]
    returns, every slot that the table entry of the move does not name
    holds the corner and the orientation it held before, and the entry
    names four slots. *)
Theorem transform_frame (s s' : State) (a : Action) (i : nat) :
  transform s a = Some s' →
  i ∉ touched_slots a →
  corner_pos s' !! i = corner_pos s !! i
  ∧ corner_ort s' !! i = corner_ort s !! i
  ∧ length (remove_dups (touched_slots a)) = 4%nat.
Proof.
  intros Hstep Hi.
  destruct (transform_untouched s s' a i Hstep Hi) as [Hpos Hort].
  split; [exact Hpos|]. split; [exact Hort|]. destruct a; reflexivity.
Qed.

Lemma transform_frame_witness :
  corner_pos (mkState [0; 5; 1; 3; 4; 6; 2; 7] [0; 2; 1; 0; 0; 1; 2; 0])
    !! 3%nat
  = corner_pos initial_state !! 3%nat
  ∧ corner_ort (mkState [0; 5; 1; 3; 4; 6; 2; 7] [0; 2; 1; 0; 0; 1; 2; 0])
      !! 3%nat
    = corner_ort initial_state !! 3%nat
  ∧ length (remove_dups (touched_slots R)) = 4%nat.
Proof.
  apply (transform_frame initial_state _ R 3); [reflexivity|].
  apply (bool_decide_unpack _). vm_compute. exact I.
Defined.

(** * Further properties of the state algebra *)

Ltac split_NoDup :=
  repeat match goal with
  | H : NoDup (_ :: _) |- _ => apply NoDup_cons in H as [? H]
  end;
  repeat match goal with
  | H : _ ∉ _ :: _ |- _ => apply not_elem_of_cons in H as [? H]
  end.

Ltac rewrite_move a :=
  match a with
  | R => rewrite transform_R | T => rewrite transform_T
  | B => rewrite transform_B | r => rewrite transform_r
  | t => rewrite transform_t | b => rewrite transform_b
  end.

Lemma transform_slot_4 (s s' : State) (a : Action) :
  transform s a = Some s' →
  corner_pos s' !! 4%nat = corner_pos s !! 4%nat
  ∧ corner_ort s' !! 4%nat = corner_ort s !! 4%nat.
Proof.
  intros Hstep. apply (transform_untouched s s' a 4 Hstep).
  destruct a; apply (bool_decide_unpack _); vm_compute; exact I.
Qed.

(** In every reachable state slot 4 still holds corner 4, unturned. *)
Theorem reachable_fixed_corner (s : State) :
  reachable s →
  corner_pos s !! 4%nat = Some 4 ∧ corner_ort s !! 4%nat = Some 0.
Proof.
  induction 1 as [|s a s' _ [IHp IHo] Hstep].
  - split; reflexivity.
  - destruct (transform_slot_4 s s' a Hstep) as [-> ->]. by split.
Qed.

Lemma reachable_fixed_corner_witness :
  corner_pos (mkState [0; 5; 1; 3; 4; 6; 2; 7] [0; 2; 1; 0; 0; 1; 2; 0])
    !! 4%nat = Some 4
  ∧ corner_ort (mkState [0; 5; 1; 3; 4; 6; 2; 7] [0; 2; 1; 0; 0; 1; 2; 0])
      !! 4%nat = Some 0.
Proof.
  apply reachable_fixed_corner.
  apply (reachable_transform initial_state R); [apply reachable_initial|].
  reflexivity.
Defined.

(** A move changes the sum of the orientations by a multiple of 3. *)
Lemma transform_twist_sum (s s' : State) (a : Action) :
  valid_state s → transform s a = Some s' →
  twist_sum s' mod 3 = twist_sum s mod 3.
Proof.
  intros Hv. pose proof (valid_state_length_pos s Hv) as Hlen.
  destruct Hv as (_ & Hlo & _).
  destruct s as [pos ort]; simpl in *.
  eight pos Hlen. eight ort Hlo.
  destruct a;
    [rewrite transform_R | rewrite transform_T | rewrite transform_B
    |rewrite transform_r | rewrite transform_t | rewrite transform_b];
    intros [= <-]; unfold twist_sum; cbn [corner_ort foldr];
    Z.div_mod_to_equations; lia.
Qed.

Lemma reachable_twist_sum_0 (s : State) :
  reachable s → twist_sum s mod 3 = 0.
Proof.
  induction 1 as [|s a s' Hs IH Hstep]; [reflexivity|].
  rewrite (transform_twist_sum s s' a); [exact IH| |exact Hstep].
  by apply reachable_valid.
Qed.

(** The orientations of every reachable state add up to a multiple of 3,
    so the orientation of any one corner is determined by the other
    seven. *)
Theorem reachable_twist_sum (s : State) :
  reachable s → twist_sum s mod 3 = 0.
Proof. apply reachable_twist_sum_0. Qed.

Lemma reachable_twist_sum_witness :
  twist_sum (mkState [0; 5; 1; 3; 4; 6; 2; 7] [0; 2; 1; 0; 0; 1; 2; 0]) mod 3
  = 0.
Proof.
  apply reachable_twist_sum.
  apply (reachable_transform initial_state R); [apply reachable_initial|].
  reflexivity.
Defined.

(** Every one of the six actions has order four on every valid state, not
    only on the identity state: four applications give the state back. *)
Theorem transform_order_four (s : State) (a : Action) :
  valid_state s → transform_n 4 s a = Some s.
Proof.
  intros Hv. pose proof (valid_state_length_pos s Hv) as Hlen.
  destruct Hv as (_ & Hlo & Hort).
  destruct s as [pos ort]; simpl in *.
  eight pos Hlen. eight ort Hlo. split_Forall.
  unfold is_orientation in *. unfold transform_n.
  destruct a;
    [do 4 (rewrite transform_R; cbn [mbind option_bind])
    |do 4 (rewrite transform_T; cbn [mbind option_bind])
    |do 4 (rewrite transform_B; cbn [mbind option_bind])
    |do 4 (rewrite transform_r; cbn [mbind option_bind])
    |do 4 (rewrite transform_t; cbn [mbind option_bind])
    |do 4 (rewrite transform_b; cbn [mbind option_bind])];
    repeat match goal with
    | |- context [((((?o + ?d) mod 3 + ?e) mod 3 + ?d) mod 3 + ?e) mod 3] =>
        replace (((((o + d) mod 3 + e) mod 3 + d) mod 3 + e) mod 3) with o
          by (Z.div_mod_to_equations; lia)
    end;
    reflexivity.
Qed.

Lemma transform_order_four_witness :
  transform_n 4
    (mkState [0; 5; 1; 3; 4; 6; 2; 7] [0; 2; 1; 0; 0; 1; 2; 0]) b
  = Some (mkState [0; 5; 1; 3; 4; 6; 2; 7] [0; 2; 1; 0; 0; 1; 2; 0]).
Proof.
  apply transform_order_four.
  split; [simpl; solve_Permutation|]. split; [reflexivity|].
  simpl. repeat first [apply Forall_nil_2 | apply Forall_cons_2];
    unfold is_orientation; lia.
Defined.

Lemma transform_seq_app (s : State) (l1 l2 : list Action) :
  transform_seq s (l1 ++ l2) = s' ← transform_seq s l1; transform_seq s' l2.
Proof.
  revert s. induction l1 as [|a l1 IH]; intros s; simpl; [reflexivity|].
  destruct (transform s a) as [s1|]; simpl; [apply IH | reflexivity].
Qed.

(** A sequence of moves is undone by the inverse moves in reverse order:
    from a valid state every sequence can be applied, and applying the
    inverses of its moves, last move first, returns to the state the
    sequence started from. *)
Theorem transform_seq_undo (s : State) (moves : list Action) :
  valid_state s →
  ∃ s' undo,
    transform_seq s moves = Some s'
    ∧ valid_state s'
    ∧ inverse_seq moves = Some undo
    ∧ transform_seq s' undo = Some s.
Proof.
  revert s. induction moves as [|a moves IH]; intros s Hv; simpl.
  - exists s, []. split; [done|]. split; [exact Hv|]. by split.
  - destruct (transform_valid s a Hv) as (s1 & Hs1 & Hv1).
    destruct (IH s1 Hv1) as (s' & undo & Hseq & Hv' & Hundo & Hback).
    pose proof (apply_then_undo_valid s a Hv) as Hstep.
    unfold apply_then_undo in Hstep.
    rewrite Hs1, inverse_action_total in Hstep |- *. simpl in Hstep |- *.
    rewrite Hundo. simpl.
    eexists s', _. split; [exact Hseq|]. split; [exact Hv'|].
    split; [reflexivity|].
    rewrite transform_seq_app, Hback. simpl. by rewrite Hstep.
Qed.

Lemma transform_seq_undo_witness :
  ∃ s' undo,
    transform_seq initial_state [R; T; b] = Some s'
    ∧ valid_state s'
    ∧ inverse_seq [R; T; b] = Some undo
    ∧ transform_seq s' undo = Some initial_state.
Proof. apply transform_seq_undo, valid_state_initial. Defined.

(** Each action is a bijection of the valid states: two valid states with
    the same successor are equal, and every valid state is the successor
    of a valid state, namely of its own successor under the inverse
    action. *)
Theorem transform_bijective (a : Action) :
  (∀ s1 s2, valid_state s1 → valid_state s2 →
     transform s1 a = transform s2 a → s1 = s2)
  ∧ (∀ s', valid_state s' →
       ∃ s, valid_state s ∧ transform s a = Some s').
Proof.
  split.
  - intros s1 s2 Hv1 Hv2 Heq.
    pose proof (apply_then_undo_valid s1 a Hv1) as H1.
    pose proof (apply_then_undo_valid s2 a Hv2) as H2.
    unfold apply_then_undo in H1, H2. rewrite Heq in H1. congruence.
  - intros s' Hv'.
    destruct (inverse_action a) as [inv|] eqn:Hinv;
      [|by rewrite inverse_action_total in Hinv].
    destruct (transform_valid s' inv Hv') as (s & Hs & Hv).
    exists s. split; [exact Hv|].
    pose proof (apply_then_undo_valid s' inv Hv') as Hback.
    unfold apply_then_undo in Hback. rewrite Hs in Hback. simpl in Hback.
    rewrite inverse_action_total in Hinv, Hback.
    injection Hinv as <-. destruct a; exact Hback.
Qed.

Lemma transform_bijective_witness :
  ∃ s, valid_state s ∧ transform s T = Some initial_state.
Proof. apply (proj2 (transform_bijective T)), valid_state_initial. Defined.

(** On a valid state the six actions lead to six different states, none
    of which is the state itself. *)
Theorem transform_successors_distinct (s : State) (a1 a2 : Action) :
  valid_state s →
  transform s a1 ≠ Some s
  ∧ (transform s a1 = transform s a2 → a1 = a2).
Proof.
  intros Hv. pose proof (valid_state_length_pos s Hv) as Hlen.
  destruct Hv as (Hperm & Hlo & _).
  assert (Hnd : NoDup (corner_pos s)).
  { rewrite Hperm. apply (NoDup_fmap_2 _), NoDup_seq. }
  destruct s as [pos ort]; simpl in *.
  eight pos Hlen. eight ort Hlo. split_NoDup.
  split.
  - destruct a1;
      match goal with |- context [transform _ ?a] => rewrite_move a end;
      intros [= ]; congruence.
  - destruct a1, a2; try reflexivity;
      repeat match goal with
      | |- context [transform _ ?a] => rewrite_move a
      end;
      intros [= ]; congruence.
Qed.

Lemma transform_successors_distinct_witness :
  transform initial_state R ≠ Some initial_state
  ∧ (transform initial_state R = transform initial_state R → R = R).
Proof. apply transform_successors_distinct, valid_state_initial. Defined.

(** * Further properties of the encoder *)

(** On a valid state and an array of at least 7 rows of 24 columns the
    result of [encode_inplace] is the array with [encode_row] applied to
    each row. *)
Lemma encode_inplace_imap (s : State) (target : list (list Z)) :
  valid_state s →
  (7 ≤ length target)%nat →
  Forall (λ row, length row = 24%nat) target →
  encode_inplace target s = Some (imap (encode_row s) target).
Proof.
  intros Hv Hrows Hcols.
  destruct (encode_loop_rows s (seq 0 7) Hv) with (target := target)
    as (target' & Hloop & Hlen & _ & Hrows'); try done.
  { apply Forall_forall. intros c Hc. apply elem_of_seq in Hc. lia. }
  { apply NoDup_seq. }
  unfold encode_inplace. rewrite Hloop. f_equal.
  apply list_eq. intros i. rewrite list_lookup_imap.
  destruct (target !! i) as [row|] eqn:Hrow; simpl.
  - rewrite (Hrows' i row Hrow). f_equal. unfold encode_row.
    destruct (decide (i ∈ seq 0 7)) as [Hin|Hnin], (decide (i < 7)%nat);
      try reflexivity; rewrite elem_of_seq in *; lia.
  - apply lookup_ge_None. apply lookup_ge_None in Hrow. lia.
Qed.

Lemma encode_row_length (s : State) (i : nat) (row : list Z) :
  length (encode_row s i row) = length row.
Proof. unfold encode_row. case_decide; by rewrite ?length_insert. Qed.

Lemma encode_rows_columns (s : State) (target : list (list Z)) :
  Forall (λ row, length row = 24%nat) target →
  Forall (λ row, length row = 24%nat) (imap (encode_row s) target).
Proof.
  rewrite !Forall_lookup. intros Hcols i row'. rewrite list_lookup_imap.
  destruct (target !! i) as [row|] eqn:Hrow; simpl; [|discriminate].
  intros [= <-]. rewrite encode_row_length. by eapply Hcols.
Qed.

(** Encoding the same state into the array a second time changes nothing:
    the second call assigns 1 to the entries the first call set. *)
Theorem encode_inplace_idempotent (s : State) (target : list (list Z)) :
  valid_state s →
  (7 ≤ length target)%nat →
  Forall (λ row, length row = 24%nat) target →
  ∃ target',
    encode_inplace target s = Some target'
    ∧ encode_inplace target' s = Some target'.
Proof.
  intros Hv Hrows Hcols. eexists. split; [by apply encode_inplace_imap|].
  rewrite encode_inplace_imap;
    [|done|by rewrite length_imap|by apply encode_rows_columns].
  f_equal. apply list_eq. intros i. rewrite !list_lookup_imap.
  destruct (target !! i) as [row|]; simpl; [|reflexivity].
  f_equal. unfold encode_row. case_decide; [|reflexivity].
  apply list_insert_insert_eq.
Qed.

Lemma encode_inplace_idempotent_witness :
  ∃ target',
    encode_inplace (np_zeros encoded_shape) initial_state = Some target'
    ∧ encode_inplace target' initial_state = Some target'.
Proof.
  apply encode_inplace_idempotent.
  - apply valid_state_initial.
  - simpl. lia.
  - simpl. repeat first [apply Forall_nil_2 | apply Forall_cons_2];
      reflexivity.
Defined.

(** Encoding two states into one array accumulates their bits, and the
    order of the two calls does not matter. *)
Theorem encode_inplace_accumulates (s1 s2 : State)
    (target : list (list Z)) :
  valid_state s1 → valid_state s2 →
  (7 ≤ length target)%nat →
  Forall (λ row, length row = 24%nat) target →
  ∃ both,
    (target' ← encode_inplace target s1; encode_inplace target' s2)
    = Some both
    ∧ (target' ← encode_inplace target s2; encode_inplace target' s1)
      = Some both
    ∧ ∀ c row, (c < 7)%nat → target !! c = Some row →
        both !! c
        = Some (<[encoded_column s2 c := 1]>
                  (<[encoded_column s1 c := 1]> row)).
Proof.
  intros Hv1 Hv2 Hrows Hcols.
  rewrite (encode_inplace_imap s1), (encode_inplace_imap s2) by done.
  simpl.
  rewrite (encode_inplace_imap s1), (encode_inplace_imap s2);
    try done; try (by rewrite length_imap);
    try (by apply encode_rows_columns).
  eexists. split; [reflexivity|]. split.
  - f_equal. apply list_eq. intros i. rewrite !list_lookup_imap.
    destruct (target !! i) as [row|]; simpl; [|reflexivity].
    f_equal. unfold encode_row. case_decide; [|reflexivity].
    destruct (decide (encoded_column s1 i = encoded_column s2 i)) as [->|Hne].
    + reflexivity.
    + by apply list_insert_insert_ne.
  - intros c row Hc Hrow. rewrite !list_lookup_imap, Hrow. simpl.
    unfold encode_row. by rewrite !decide_True by exact Hc.
Qed.

Lemma encode_inplace_accumulates_witness :
  ∃ both,
    (target' ← encode_inplace (np_zeros encoded_shape) initial_state;
     encode_inplace target'
       (mkState [0; 5; 1; 3; 4; 6; 2; 7] [0; 2; 1; 0; 0; 1; 2; 0]))
    = Some both
    ∧ (target' ← encode_inplace (np_zeros encoded_shape)
                   (mkState [0; 5; 1; 3; 4; 6; 2; 7] [0; 2; 1; 0; 0; 1; 2; 0]);
       encode_inplace target' initial_state)
      = Some both.
Proof.
  destruct (encode_inplace_accumulates initial_state
              (mkState [0; 5; 1; 3; 4; 6; 2; 7] [0; 2; 1; 0; 0; 1; 2; 0])
              (np_zeros encoded_shape))
    as (both & H1 & H2 & _).
  - apply valid_state_initial.
  - split; [simpl; solve_Permutation|]. split; [reflexivity|].
    simpl. repeat first [apply Forall_nil_2 | apply Forall_cons_2];
      unfold is_orientation; lia.
  - simpl. lia.
  - simpl. repeat first [apply Forall_nil_2 | apply Forall_cons_2];
      reflexivity.
  - exists both. by split.
Defined.

Lemma np_store_length target i j v target' :
  np_store target i j v = Some target' → length target' = length target.
Proof.
  unfold np_store. destruct (target !! i) as [row|]; simpl; [|discriminate].
  destruct (np_axis_index (length row) j); simpl; [|discriminate].
  intros [= <-]. apply length_insert.
Qed.

Lemma encode_index_row (s : State) (c i : nat) (j : Z) :
  encode_index s c = Some (i, j) → i = c.
Proof.
  unfold encode_index.
  destruct (tuple_index _ _) as [p|]; simpl; [|discriminate].
  destruct (corner_ort s !! p); simpl; [|discriminate]. by intros [= <- _].
Qed.

(** The loop raises as soon as one of its corners cannot be found or has
    no row in the array. *)
Lemma encode_loop_raises (s : State) (corner_idxs : list nat) (c : nat) :
  c ∈ corner_idxs →
  ∀ target,
    encode_index s c = None ∨ (length target ≤ c)%nat →
    encode_loop target s corner_idxs = None.
Proof.
  induction 1 as [c rest|c c' rest Hin IH]; intros target Hbad; simpl.
  - destruct (encode_index s c) as [[i j]|] eqn:Henc; simpl; [|reflexivity].
    destruct Hbad as [?|Hlen]; [discriminate|].
    apply encode_index_row in Henc as ->.
    unfold np_store. by rewrite (lookup_ge_None_2 target c Hlen).
  - destruct (encode_index s c') as [[i j]|]; simpl; [|reflexivity].
    destruct (np_store target i j 1) as [target'|] eqn:Hstore; simpl;
      [|reflexivity].
    apply IH. apply np_store_length in Hstore. rewrite Hstore. exact Hbad.
Qed.

(** A state that lacks one of the corners 0..6 cannot be encoded: the
    search for the corner raises, whatever the array. *)
Theorem encode_inplace_missing_corner (s : State) (target : list (list Z))
    (c : nat) :
  (c < 7)%nat →
  Z.of_nat c ∉ corner_pos s →
  encode_inplace target s = None.
Proof.
  intros Hc Hnot. apply (encode_loop_raises s (seq 0 7) c).
  - apply elem_of_seq. lia.
  - left. unfold encode_index, tuple_index.
    destruct (list_find _ _) as [[p x]|] eqn:Hfind; [|reflexivity].
    apply list_find_Some in Hfind as (Hp & -> & _).
    exfalso. apply Hnot. eapply list_elem_of_lookup_2, Hp.
Qed.

Lemma encode_inplace_missing_corner_witness :
  encode_inplace (np_zeros encoded_shape)
    (mkState [0; 1; 2; 3; 4; 5; 5; 7] [0; 0; 0; 0; 0; 0; 0; 0])
  = None.
Proof.
  apply (encode_inplace_missing_corner _ _ 6); [lia|].
  simpl. rewrite !elem_of_cons, elem_of_nil.
  intros [H|[H|[H|[H|[H|[H|[H|[H|H]]]]]]]]; [discriminate H..|exact H].
Defined.

(** An array of fewer than 7 rows cannot take an encoding, whatever the
    state. *)
Theorem encode_inplace_small_array (s : State) (target : list (list Z)) :
  (length target < 7)%nat →
  encode_inplace target s = None.
Proof.
  intros Hlen. apply (encode_loop_raises s (seq 0 7) (length target)).
  - apply elem_of_seq. lia.
  - right. lia.
Qed.

Lemma encode_inplace_small_array_witness :
  encode_inplace (np_zeros (6, 24)%nat) initial_state = None.
Proof. apply encode_inplace_small_array. simpl. lia. Defined.

Lemma one_hot_inj (n i j : nat) :
  (i < n)%nat →
  <[i := 1]> (replicate n 0) = <[j := 1]> (replicate n 0) → i = j.
Proof.
  intros Hi Heq. destruct (decide (i = j)) as [|Hne]; [done|].
  apply (f_equal (.!! i)) in Heq.
  rewrite list_lookup_insert_eq in Heq by (by rewrite length_replicate).
  rewrite list_lookup_insert_ne, lookup_replicate_2 in Heq by done.
  discriminate Heq.
Qed.

Lemma foldr_add_insert (l : list Z) (k : nat) (w v : Z) :
  l !! k = Some w →
  foldr Z.add 0 (<[k := v]> l) = foldr Z.add 0 l - w + v.
Proof.
  revert k. induction l as [|x l IH]; intros [|k]; simpl; try discriminate.
  - intros [= ->]. lia.
  - intros Hk. rewrite (IH k Hk). lia.
Qed.

Lemma valid_state_corner (s : State) (i : nat) (x : Z) :
  valid_state s → corner_pos s !! i = Some x →
  ∃ c, x = Z.of_nat c ∧ (c < 8)%nat.
Proof.
  intros (Hperm & _ & _) Hi.
  apply list_elem_of_lookup_2 in Hi. rewrite Hperm in Hi.
  apply list_elem_of_fmap in Hi as (c & -> & Hc).
  apply elem_of_seq in Hc. exists c. split; [done|lia].
Qed.

Lemma valid_state_NoDup (s : State) : valid_state s → NoDup (corner_pos s).
Proof. intros (Hperm & _ & _). rewrite Hperm. apply (NoDup_fmap_2 _), NoDup_seq. Qed.

(** Two valid states with the same encoding hold each of the corners 0..6
    in the same slot with the same orientation. *)
Lemma encode_inplace_agree (s1 s2 : State) (c : nat) :
  valid_state s1 → valid_state s2 →
  encode_inplace (np_zeros encoded_shape) s1
  = encode_inplace (np_zeros encoded_shape) s2 →
  (c < 7)%nat →
  ∃ p o,
    corner_pos s1 !! p = Some (Z.of_nat c)
    ∧ corner_pos s2 !! p = Some (Z.of_nat c)
    ∧ corner_ort s1 !! p = Some o
    ∧ corner_ort s2 !! p = Some o.
Proof.
  intros Hv1 Hv2 Heq Hc.
  assert (Hshape : Forall (λ row : list Z, length row = 24%nat)
                     (np_zeros encoded_shape)).
  { simpl. repeat first [apply Forall_nil_2 | apply Forall_cons_2];
      reflexivity. }
  rewrite !encode_inplace_imap in Heq by (done || (simpl; lia)).
  apply (f_equal (λ res, res ≫= (.!! c))) in Heq.
  cbn [mbind option_bind] in Heq.
  rewrite !list_lookup_imap in Heq.
  unfold np_zeros in Heq. rewrite lookup_replicate_2 in Heq by exact Hc.
  simpl in Heq. injection Heq as Heq.
  unfold encode_row in Heq. rewrite !decide_True in Heq by exact Hc.
  destruct (encode_index_valid s1 c Hv1)
    as (p1 & o1 & Hp1 & _ & Ho1 & Hlt1 & Hr1 & Henc1); [lia|].
  destruct (encode_index_valid s2 c Hv2)
    as (p2 & o2 & Hp2 & _ & Ho2 & Hlt2 & Hr2 & Henc2); [lia|].
  unfold encoded_column in Heq. rewrite Henc1, Henc2 in Heq. simpl in Heq.
  apply (one_hot_inj 24) in Heq; [|lia].
  assert (p1 = p2 ∧ o1 = o2) as [-> ->] by lia.
  by exists p2, o2.
Qed.

(** The encoding determines the state among the reachable ones: two
    reachable states with the same encoding on the zeroed array are equal,
    although only seven of the eight corners are encoded. *)
Theorem encode_inplace_injective (s1 s2 : State) :
  reachable s1 → reachable s2 →
  encode_inplace (np_zeros encoded_shape) s1
  = encode_inplace (np_zeros encoded_shape) s2 →
  s1 = s2.
Proof.
  intros Hr1 Hr2 Heq.
  pose proof (reachable_valid s1 Hr1) as Hv1.
  pose proof (reachable_valid s2 Hr2) as Hv2.
  pose proof (reachable_twist_sum_0 s1 Hr1) as Hsum1.
  pose proof (reachable_twist_sum_0 s2 Hr2) as Hsum2.
  pose proof (valid_state_length_pos s1 Hv1) as Hlen1.
  pose proof (valid_state_length_pos s2 Hv2) as Hlen2.
  pose proof (valid_state_NoDup s1 Hv1) as Hnd1.
  pose proof (valid_state_NoDup s2 Hv2) as Hnd2.
  pose proof (encode_inplace_agree s1 s2) as Hagree.
  pose proof (encode_inplace_agree s2 s1) as Hagree'.
  assert (Hpos : corner_pos s1 = corner_pos s2).
  { apply list_eq. intros i.
    destruct (corner_pos s1 !! i) as [x|] eqn:Hx.
    - destruct (valid_state_corner s1 i x Hv1 Hx) as (c & -> & Hc).
      destruct (decide (c < 7)%nat) as [Hc7|Hc7].
      + destruct (Hagree c Hv1 Hv2 Heq Hc7) as (p & o & Hp1 & Hp2 & _).
        by rewrite (NoDup_lookup _ _ _ _ Hnd1 Hx Hp1).
      + destruct (lookup_lt_is_Some_2 (corner_pos s2) i) as [y Hy].
        { apply lookup_lt_Some in Hx. lia. }
        destruct (valid_state_corner s2 i y Hv2 Hy) as (c' & -> & Hc').
        destruct (decide (c' < 7)%nat) as [Hc7'|Hc7'].
        * destruct (Hagree' c' Hv2 Hv1 (eq_sym Heq) Hc7')
            as (p & o & Hp2 & Hp1 & _).
          rewrite <- (NoDup_lookup _ _ _ _ Hnd2 Hy Hp2) in Hp1.
          rewrite Hx in Hp1. injection Hp1 as Hp1. lia.
        * rewrite Hy. do 2 f_equal. lia.
    - symmetry. apply lookup_ge_None. apply lookup_ge_None in Hx. lia. }
  destruct Hv1 as (Hperm1 & Hlo1 & Hort1), Hv2 as (Hperm2 & Hlo2 & Hort2).
  assert (Hin7 : (7 : Z) ∈ corner_pos s1).
  { rewrite Hperm1. apply (list_elem_of_fmap_2 Z.of_nat _ 7%nat), elem_of_seq.
    lia. }
  apply list_elem_of_lookup_1 in Hin7 as [k Hk].
  pose proof (lookup_lt_Some _ _ _ Hk) as Hklt.
  destruct (lookup_lt_is_Some_2 (corner_ort s1) k) as [v Hv]; [lia|].
  destruct (lookup_lt_is_Some_2 (corner_ort s2) k) as [w Hw]; [lia|].
  assert (Hins : corner_ort s1 = <[k := v]> (corner_ort s2)).
  { apply list_eq. intros i. destruct (decide (i = k)) as [->|Hne].
    - rewrite list_lookup_insert_eq by lia. exact Hv.
    - rewrite list_lookup_insert_ne by done.
      destruct (corner_pos s1 !! i) as [x|] eqn:Hx.
      + destruct (valid_state_corner s1 i x) as (c & -> & Hc);
          [by repeat split|done|].
        assert (c ≠ 7%nat) as Hc7.
        { intros ->. apply Hne. exact (NoDup_lookup _ _ _ _ Hnd1 Hx Hk). }
        destruct (Hagree c) as (p & o & Hp1 & _ & Ho1 & Ho2);
          [by repeat split|by repeat split|done|lia|].
        rewrite (NoDup_lookup _ _ _ _ Hnd1 Hx Hp1). congruence.
      + apply lookup_ge_None in Hx.
        rewrite (lookup_ge_None_2 (corner_ort s1)) by lia.
        rewrite (lookup_ge_None_2 (corner_ort s2)) by lia. reflexivity. }
  assert (v = w) as ->.
  { pose proof (Forall_lookup_1 _ _ _ _ Hort1 Hv) as Hvr.
    pose proof (Forall_lookup_1 _ _ _ _ Hort2 Hw) as Hwr.
    unfold is_orientation in Hvr, Hwr. unfold twist_sum in Hsum1, Hsum2.
    rewrite Hins, (foldr_add_insert _ k w v Hw) in Hsum1.
    revert Hsum1 Hsum2. Z.div_mod_to_equations. lia. }
  rewrite list_insert_id in Hins by exact Hw.
  destruct s1, s2; simpl in *. congruence.
Qed.

Lemma encode_inplace_injective_witness :
  reachable initial_state
  ∧ encode_inplace (np_zeros encoded_shape) initial_state
    = encode_inplace (np_zeros encoded_shape)
        (mkState [0; 1; 2; 3; 4; 5; 6; 7] [0; 0; 0; 0; 0; 0; 0; 0])
  ∧ initial_state
    = mkState [0; 1; 2; 3; 4; 5; 6; 7] [0; 0; 0; 0; 0; 0; 0; 0].
Proof.
  split; [apply reachable_initial|]. split; [reflexivity|].
  apply encode_inplace_injective;
    [apply reachable_initial | apply reachable_initial | reflexivity].
Defined.

(** * Further properties of the renderer and of the tokens *)

Lemma render_slots_take (s : State) :
  zip (zip (take 8 (corner_pos s)) (take 8 (corner_ort s))) corner_maps
  = zip (zip (corner_pos s) (corner_ort s)) corner_maps.
Proof.
  rewrite <- zip_with_take.
  change 8%nat with (length corner_maps). apply zip_with_take_l.
Qed.

(** [render] reads the first eight entries of the two tuples only:
    whatever follows them is ignored, without an error. *)
Theorem render_ignores_extra_slots (s : State) :
  render (mkState (take 8 (corner_pos s)) (take 8 (corner_ort s)))
  = render s.
Proof.
  unfold render, render_sides. simpl corner_pos. simpl corner_ort.
  by rewrite render_slots_take.
Qed.

Lemma py_index_wrap (c : Z) :
  0 ≤ c ≤ 7 → py_index corner_colors (c - 8) = py_index corner_colors c.
Proof.
  intros Hc.
  assert (c = 0 ∨ c = 1 ∨ c = 2 ∨ c = 3 ∨ c = 4 ∨ c = 5 ∨ c = 6 ∨ c = 7)
    as Hcases by lia.
  repeat destruct Hcases as [-> | Hcases]; try subst c; reflexivity.
Qed.

Lemma render_loop_wrap sides pos ort maps :
  Forall (λ c, 0 ≤ c ≤ 7) pos →
  render_loop sides (zip (zip ((λ c, c - 8) <$> pos) ort) maps)
  = render_loop sides (zip (zip pos ort) maps).
Proof.
  intros Hpos. revert sides ort maps.
  induction Hpos as [|c pos Hc _ IH]; intros sides ort maps; [reflexivity|].
  destruct ort as [|o ort], maps as [|m maps]; try reflexivity.
  simpl. rewrite (py_index_wrap c Hc).
  destruct (py_index corner_colors c) as [cols|]; simpl; [|reflexivity].
  destruct (_map_orient cols o) as [cols'|]; simpl; [|reflexivity].
  destruct (render_corner sides (zip m cols')) as [sides'|]; simpl;
    [apply IH | reflexivity].
Qed.

(** A negative corner number is not rejected: Python's indexing counts it
    from the end of the colour table, so a state whose corners are all
    written 8 too low renders like the state with the corners 0..7. *)
Theorem render_negative_corners (pos ort : list Z) :
  Forall (λ c, 0 ≤ c ≤ 7) pos →
  render (mkState ((λ c, c - 8) <$> pos) ort) = render (mkState pos ort).
Proof.
  intros Hpos. unfold render, render_sides. simpl corner_pos.
  simpl corner_ort. by rewrite render_loop_wrap.
Qed.

Lemma render_negative_corners_witness :
  render (mkState [-8; -7; -6; -5; -4; -3; -2; -1] (replicate 8 0))
  = render initial_state.
Proof.
  apply (render_negative_corners [0; 1; 2; 3; 4; 5; 6; 7]).
  repeat first [apply Forall_nil_2 | apply Forall_cons_2]; lia.
Defined.

(** The tokens follow the inverse pairing: the token of an action and the
    token of its inverse, which is always another action, have the same
    face letter and opposite signs, and the sign is [+] exactly for the
    keys of the generator table. *)
Theorem token_inverse_consistent (a : Action) :
  ∃ a' face,
    inverse_action a = Some a'
    ∧ a' ≠ a
    ∧ String.length face = 1%nat
    ∧ ((is_Some (_transform_map !! a)
        ∧ render_action a = face +:+ "+"
        ∧ render_action a' = face +:+ "-")
       ∨ (_transform_map !! a = None
          ∧ render_action a = face +:+ "-"
          ∧ render_action a' = face +:+ "+")).
Proof.
  rewrite inverse_action_total, transform_map_generator.
  destruct a;
    [exists r, "R"%string | exists t, "U"%string | exists b, "B"%string
    |exists R, "R"%string | exists T, "U"%string | exists B, "B"%string];
    (split; [reflexivity|]); (split; [discriminate|]);
    (split; [reflexivity|]);
    first [left; split; [by eexists|]; by split
          |right; split; [reflexivity|]; by split].
Qed.

Lemma sides_store_other sides arr_idx index col sides' f c :
  sides_store sides arr_idx index col = Some sides' →
  (arr_idx, index) ≠ (f, c) →
  sides_cell sides' f c = sides_cell sides f c.
Proof.
  unfold sides_store, list_store, sides_cell.
  destruct (sides !! arr_idx) as [side|] eqn:Hside; simpl; [|discriminate].
  destruct (index <? length side)%nat; simpl; [|discriminate].
  destruct (arr_idx <? length sides)%nat eqn:Hlt; [|discriminate].
  apply Nat.ltb_lt in Hlt. intros [= <-] Hne.
  destruct (decide (arr_idx = f)) as [->|Hf].
  - rewrite list_lookup_insert_eq, Hside by done. simpl.
    apply list_lookup_insert_ne. congruence.
  - by rewrite list_lookup_insert_ne.
Qed.

Lemma render_corner_other sides tr sides' f c :
  render_corner sides tr = Some sides' →
  (f, c) ∉ tr.*1 →
  sides_cell sides' f c = sides_cell sides f c.
Proof.
  revert sides. induction tr as [|[[arr_idx index] col] tr IH];
    intros sides; simpl.
  - by intros [= <-].
  - destruct (sides_store sides arr_idx index col) as [sides1|] eqn:Hstore;
      simpl; [|discriminate].
    intros Htr Hnot. apply not_elem_of_cons in Hnot as [Hne Hnot].
    rewrite (IH sides1 Htr Hnot).
    eapply sides_store_other; [exact Hstore|congruence].
Qed.

Lemma snd_zip_take {A B} (l : list A) (k : list B) :
  (zip l k).*2 = take (length l) k.
Proof.
  revert k. induction l as [|x l IH]; intros [|y k]; simpl; try reflexivity.
  by rewrite IH.
Qed.

Lemma corner_maps_length_3 : Forall (λ maps, length maps = 3%nat) corner_maps.
Proof.
  unfold corner_maps.
  repeat first [apply Forall_nil_2 | apply Forall_cons_2]; reflexivity.
Qed.

Lemma slot_7_cell_unassigned (n : nat) :
  (n < 8)%nat → (5, 2)%nat ∉ concat (take n corner_maps).
Proof.
  intros Hn.
  do 8 (destruct n as [|n];
        [apply (bool_decide_unpack _); vm_compute; exact I|]).
  lia.
Qed.

(** A state of fewer than eight slots is not rejected for that: when
    [render] returns, the cells of the missing slots are still [None],
    cell 2 of the bottom side among them. *)
Theorem render_short_state (s : State) (rs : RenderedState) :
  (length (corner_pos s) < 8 ∨ length (corner_ort s) < 8)%nat →
  render s = Some rs →
  bottom rs !! 2%nat = Some None.
Proof.
  intros Hshort. unfold render.
  destruct (render_sides s) as [sides|] eqn:Hsides; simpl; [|discriminate].
  destruct (sides !! 5%nat) as [s5|] eqn:H5;
    [|by repeat (destruct (sides !! _); simpl; try discriminate)].
  intros Hrs.
  assert (bottom rs = s5) as ->.
  { repeat (destruct (sides !! _); simpl in Hrs; try discriminate).
    by simplify_eq/=. }
  unfold render_sides in Hsides. rewrite render_loop_trace in Hsides.
  set (slots := zip (zip (corner_pos s) (corner_ort s)) corner_maps) in *.
  destruct (render_trace slots) as [tr|] eqn:Htr; simpl in Hsides;
    [|discriminate].
  assert (Hmaps : slots.*2 = take (length (zip (corner_pos s) (corner_ort s)))
                               corner_maps) by apply snd_zip_take.
  assert (Hcoord : tr.*1 = concat (slots.*2)).
  { apply render_trace_coordinates; [|exact Htr].
    apply (Forall_fmap snd (λ maps, length maps = 3%nat)).
    rewrite Hmaps. apply Forall_take, corner_maps_length_3. }
  pose proof (render_corner_other _ _ _ 5%nat 2%nat Hsides) as Hcell.
  unfold sides_cell in Hcell. rewrite H5 in Hcell. simpl in Hcell.
  apply Hcell. rewrite Hcoord, Hmaps. apply slot_7_cell_unassigned.
  rewrite length_zip. lia.
Qed.

Lemma render_short_state_witness :
  ∃ rs, render (mkState [0; 1; 2] [0; 0; 0]) = Some rs
    ∧ bottom rs !! 2%nat = Some None.
Proof.
  eexists. split; [vm_compute; reflexivity|].
  eapply (render_short_state (mkState [0; 1; 2] [0; 0; 0]));
    [left; simpl; lia | vm_compute; reflexivity].
Defined.

(** The colours seen in a slot tell which corner sits there and how it is
    turned. *)
Lemma slot_colors_inj (c1 o1 c2 o2 : Z) (cols : list string) :
  0 ≤ c1 ≤ 7 → is_orientation o1 → 0 ≤ c2 ≤ 7 → is_orientation o2 →
  slot_colors c1 o1 = Some cols → slot_colors c2 o2 = Some cols →
  c1 = c2 ∧ o1 = o2.
Proof.
  unfold is_orientation. intros Hc1 Ho1 Hc2 Ho2.
  assert (c1 = 0 ∨ c1 = 1 ∨ c1 = 2 ∨ c1 = 3 ∨ c1 = 4 ∨ c1 = 5 ∨ c1 = 6
          ∨ c1 = 7) as Hk1 by lia.
  assert (c2 = 0 ∨ c2 = 1 ∨ c2 = 2 ∨ c2 = 3 ∨ c2 = 4 ∨ c2 = 5 ∨ c2 = 6
          ∨ c2 = 7) as Hk2 by lia.
  assert (o1 = 0 ∨ o1 = 1 ∨ o1 = 2) as Hj1 by lia.
  assert (o2 = 0 ∨ o2 = 1 ∨ o2 = 2) as Hj2 by lia.
  clear Hc1 Ho1 Hc2 Ho2.
  repeat destruct Hk1 as [-> | Hk1]; try subst c1;
    repeat destruct Hj1 as [-> | Hj1]; try subst o1;
    intros [= <-];
    repeat destruct Hk2 as [-> | Hk2]; try subst c2;
    repeat destruct Hj2 as [-> | Hj2]; try subst o2;
    intros Hcols; first [discriminate Hcols | by split].
Qed.

Lemma render_trace_inj slots1 slots2 tr :
  slots1.*2 = slots2.*2 →
  Forall (λ slot, length slot.2 = 3%nat) slots1 →
  Forall (λ slot, 0 ≤ slot.1.1 ≤ 7 ∧ is_orientation slot.1.2) slots1 →
  Forall (λ slot, 0 ≤ slot.1.1 ≤ 7 ∧ is_orientation slot.1.2) slots2 →
  render_trace slots1 = Some tr →
  render_trace slots2 = Some tr →
  slots1 = slots2.
Proof.
  intros Hmaps Hlen. revert slots2 tr Hmaps.
  induction Hlen as [|[[c1 o1] maps] slots1 Hlen1 _ IH];
    intros [|[[c2 o2] maps2] slots2] tr Hmaps Hr1 Hr2; try discriminate Hmaps;
    [reflexivity|].
  injection Hmaps as <- Hmaps.
  apply Forall_cons in Hr1 as [[Hc1 Ho1] Hr1].
  apply Forall_cons in Hr2 as [[Hc2 Ho2] Hr2].
  simpl in *.
  destruct (py_index corner_colors c1) as [cols1|] eqn:Hcols1;
    simpl; [|discriminate].
  destruct (_map_orient cols1 o1) as [cols1'|] eqn:Hcols1';
    simpl; [|discriminate].
  destruct (render_trace slots1) as [rest1|] eqn:Hrest1; simpl;
    [|discriminate].
  intros [= <-].
  destruct (py_index corner_colors c2) as [cols2|] eqn:Hcols2;
    simpl; [|discriminate].
  destruct (_map_orient cols2 o2) as [cols2'|] eqn:Hcols2';
    simpl; [|discriminate].
  destruct (render_trace slots2) as [rest2|] eqn:Hrest2; simpl;
    [|discriminate].
  intros [= Happ].
  assert (Hl1 : length cols1' = 3%nat).
  { rewrite (_map_orient_length _ _ _ Hcols1').
    eapply corner_colors_length, py_index_elem_of, Hcols1. }
  assert (Hl2 : length cols2' = 3%nat).
  { rewrite (_map_orient_length _ _ _ Hcols2').
    eapply corner_colors_length, py_index_elem_of, Hcols2. }
  apply app_inj_1 in Happ as [Hzip ->]; [|rewrite !length_zip; lia].
  apply (f_equal (fmap snd)) in Hzip.
  rewrite !snd_zip in Hzip by lia. subst cols2'.
  destruct (slot_colors_inj c1 o1 c2 o2 cols1') as [-> ->]; try done.
  { unfold slot_colors. by rewrite Hcols1. }
  { unfold slot_colors. by rewrite Hcols2. }
  f_equal. by eapply IH.
Qed.

Lemma render_corner_placement_inj (cols1 cols2 : list string) :
  length cols1 = 24%nat → length cols2 = 24%nat →
  render_corner _init_sides (zip placement cols1)
  = render_corner _init_sides (zip placement cols2) →
  cols1 = cols2.
Proof.
  intros Hlen1 Hlen2.
  do 24 (destruct cols1 as [|? cols1]; [discriminate Hlen1|]).
  destruct cols1; [clear Hlen1|discriminate Hlen1].
  do 24 (destruct cols2 as [|? cols2]; [discriminate Hlen2|]).
  destruct cols2; [clear Hlen2|discriminate Hlen2].
  vm_compute. congruence.
Qed.

(** What [render] does on a valid state: its trace exists, runs along the
    placement table, and fills the six sides. *)
Lemma render_valid_trace (s : State) :
  valid_state s →
  ∃ tr sides,
    render_writes s = Some tr
    ∧ tr.*1 = placement
    ∧ render_corner _init_sides tr = Some sides
    ∧ render_sides s = Some sides
    ∧ length sides = 6%nat
    ∧ Forall (λ slot, 0 ≤ slot.1.1 ≤ 7 ∧ is_orientation slot.1.2)
        (zip (zip (corner_pos s) (corner_ort s)) corner_maps).
Proof.
  intros Hv. pose proof (valid_state_length_pos s Hv) as Hlp.
  assert (Hpos : Forall (λ c, 0 ≤ c ≤ 7) (corner_pos s)).
  { apply Forall_lookup. intros i x Hx.
    destruct (valid_state_corner s i x Hv Hx) as (c & -> & Hc). lia. }
  destruct Hv as (_ & Hlo & Hort).
  destruct s as [pos ort]; simpl in *.
  eight pos Hlp. eight ort Hlo. split_Forall.
  unfold render_sides, render_writes. simpl zip.
  match goal with |- context [render_trace ?l] => set (slots := l) end.
  assert (Hrange : Forall (λ slot, 0 ≤ slot.1.1 ≤ 7
                                   ∧ is_orientation slot.1.2) slots).
  { subst slots.
    repeat first [apply Forall_nil_2 | apply Forall_cons_2]; by split. }
  destruct (render_trace_is_Some slots Hrange) as [tr Htr].
  assert (Hcoord : tr.*1 = placement).
  { rewrite (render_trace_coordinates slots tr); [reflexivity| |exact Htr].
    subst slots.
    repeat first [apply Forall_nil_2 | apply Forall_cons_2]; reflexivity. }
  destruct (render_corner_placement (tr.*2)) as (sides & Hsides & Hlen & _).
  { rewrite length_fmap, <- (length_fmap fst), Hcoord. reflexivity. }
  rewrite <- Hcoord, zip_fst_snd in Hsides.
  exists tr, sides. rewrite render_loop_trace, Htr. simpl. rewrite Hsides.
  by repeat split.
Qed.

(** [render] loses nothing: two valid states with the same rendering are
    the same state. *)
Theorem render_injective (s1 s2 : State) :
  valid_state s1 → valid_state s2 →
  render s1 = render s2 →
  s1 = s2.
Proof.
  intros Hv1 Hv2 Heq.
  destruct (render_valid_trace s1 Hv1)
    as (tr1 & sides1 & Htr1 & Hc1 & Hrc1 & Hs1 & Hl1 & Hr1).
  destruct (render_valid_trace s2 Hv2)
    as (tr2 & sides2 & Htr2 & Hc2 & Hrc2 & Hs2 & Hl2 & Hr2).
  assert (sides1 = sides2) as <-.
  { unfold render in Heq. rewrite Hs1, Hs2 in Heq.
    do 6 (destruct sides1 as [|? sides1]; [discriminate Hl1|]).
    destruct sides1; [|discriminate Hl1].
    do 6 (destruct sides2 as [|? sides2]; [discriminate Hl2|]).
    destruct sides2; [|discriminate Hl2].
    simpl in Heq. congruence. }
  assert (tr1 = tr2) as <-.
  { rewrite <- (zip_fst_snd tr1), <- (zip_fst_snd tr2), Hc1, Hc2.
    f_equal. apply render_corner_placement_inj.
    - by rewrite length_fmap, <- (length_fmap fst), Hc1.
    - by rewrite length_fmap, <- (length_fmap fst), Hc2.
    - rewrite <- Hc1 at 1. rewrite <- Hc2, !zip_fst_snd. congruence. }
  pose proof (valid_state_length_pos s1 Hv1) as Hlp1.
  pose proof (valid_state_length_pos s2 Hv2) as Hlp2.
  destruct Hv1 as (_ & Hlo1 & _), Hv2 as (_ & Hlo2 & _).
  unfold render_writes in Htr1, Htr2.
  assert (Hslots : zip (zip (corner_pos s1) (corner_ort s1)) corner_maps
                   = zip (zip (corner_pos s2) (corner_ort s2)) corner_maps).
  { apply (render_trace_inj _ _ tr1); try done.
    - rewrite !snd_zip; [done|rewrite length_zip; simpl; lia..].
    - apply (Forall_fmap snd (λ maps, length maps = 3%nat)).
      rewrite snd_zip by (rewrite length_zip; simpl; lia).
      apply corner_maps_length_3. }
  destruct s1 as [pos1 ort1], s2 as [pos2 ort2]; simpl in *.
  eight pos1 Hlp1. eight ort1 Hlo1. eight pos2 Hlp2. eight ort2 Hlo2.
  simpl in Hslots. congruence.
Qed.

Lemma render_injective_witness :
  render initial_state
  = render (mkState [0; 1; 2; 3; 4; 5; 6; 7] [0; 0; 0; 0; 0; 0; 0; 0])
  ∧ initial_state
    = mkState [0; 1; 2; 3; 4; 5; 6; 7] [0; 0; 0; 0; 0; 0; 0; 0].
Proof.
  split; [reflexivity|].
  apply render_injective;
    [apply valid_state_initial | apply valid_state_initial | reflexivity].
Defined.
